(** * PrivacyGuard: span reconciliation and reversible substitution

    A shallow embedding of [src/privacy_guard.py].  The regex engine and the
    NER pipelines are external collaborators: a compiled pattern is modelled
    by its [finditer] function and a pipeline by the function from a text to
    the entities it reports.  Everything downstream of the detectors
    (sorting, overlap filtering, placeholder allocation, substitution and
    restoration) is translated statement by statement. *)

From Stdlib Require Import Ascii String.
From Stdlib Require Import List ZArith Lia Bool.
From Stdlib Require Import Permutation Sorted.
From Stdlib Require Import Decimal DecimalNat DecimalString.
Import ListNotations.

Local Open Scope Z_scope.

(** A Python [str] is a sequence of characters; offsets index characters. *)
Definition text := list ascii.

(** String literals. *)
Definition str (s : string) : text := list_ascii_of_string s.

Definition text_eqb (a b : text) : bool :=
  if list_eq_dec ascii_dec a b then true else false.

(** ** Python built-ins used by the source *)
Module Py.

(** Normalisation of one slice bound against a sequence of length [len]:
    a negative bound counts from the end, and every bound is clamped into
    [0 .. len]. *)
Definition slice_index (len : nat) (i : Z) : nat :=
  if i <? 0 then Z.to_nat (Z.max (i + Z.of_nat len) 0)
  else Nat.min (Z.to_nat i) len.

(** [s[lo:hi]] *)
Definition slice (s : text) (lo hi : Z) : text :=
  let a := slice_index (length s) lo in
  let b := slice_index (length s) hi in
  firstn (b - a) (skipn a s).

(** [s[lo:]] *)
Definition slice_from (s : text) (lo : Z) : text :=
  skipn (slice_index (length s) lo) s.

(** [s.startswith(p)] *)
Fixpoint startswith (p s : text) : bool :=
  match p, s with
  | [], _ => true
  | _ :: _, [] => false
  | a :: p', b :: s' => Ascii.eqb a b && startswith p' s'
  end.

(** Left-to-right scan of [str.replace] for a non-empty [old]: [skip]
    counts the characters of the current occurrence still to be dropped. *)
Fixpoint replace_scan (old new : text) (skip : nat) (s : text) : text :=
  match s with
  | [] => []
  | c :: s' =>
      match skip with
      | S k => replace_scan old new k s'
      | O =>
          if startswith old s
          then new ++ replace_scan old new (length old - 1)%nat s'
          else c :: replace_scan old new 0%nat s'
      end
  end.

(** [s.replace(old, new)]: every non-overlapping occurrence, leftmost
    first; an empty [old] matches before every character and at the end. *)
Definition replace (s old new : text) : text :=
  match old with
  | [] => new ++ flat_map (fun c => c :: new) s
  | _ :: _ => replace_scan old new 0%nat s
  end.

(** [str(n)] for a non-negative integer. *)
Definition str_of_nat (n : nat) : text :=
  str (NilEmpty.string_of_uint (Nat.to_uint n)).

(** [sorted(l, key=key)]: a stable sort, ascending in [key]. *)
Section Sorted.
Context {A : Type} (key : A -> Z).

Fixpoint insert_by (x : A) (l : list A) : list A :=
  match l with
  | [] => [x]
  | y :: l' => if key x <=? key y then x :: l else y :: insert_by x l'
  end.

Definition sorted (l : list A) : list A := fold_right insert_by [] l.
End Sorted.

(** [sorted(l, key=key, reverse=True)]: descending in [key]; elements with
    equal keys keep their original order. *)
Definition sorted_reverse {A : Type} (key : A -> Z) (l : list A) : list A :=
  sorted (fun x => - key x) l.

(** ["".join(parts)] *)
Definition join (parts : list text) : text := concat parts.

End Py.

(** ** Python dictionaries with string keys

    Iteration follows insertion order, and assigning to an existing key
    keeps its position. *)
Module Dict.

Definition t (V : Type) := list (text * V).

Definition empty {V : Type} : t V := [].

Fixpoint get {V : Type} (d : t V) (k : text) : option V :=
  match d with
  | [] => None
  | (k', v) :: d' => if text_eqb k k' then Some v else get d' k
  end.

Definition mem {V : Type} (k : text) (d : t V) : bool :=
  match get d k with Some _ => true | None => false end.

Fixpoint set {V : Type} (d : t V) (k : text) (v : V) : t V :=
  match d with
  | [] => [(k, v)]
  | (k', v') :: d' =>
      if text_eqb k k' then (k', v) :: d' else (k', v') :: set d' k v
  end.

Definition keys {V : Type} (d : t V) : list text := map fst d.

Definition items {V : Type} (d : t V) : list (text * V) := d.

End Dict.

(** ** Data model *)

(** A match tuple [(start, end, label, text)]. *)
Record span := mk_span {
  start : Z;
  end_ : Z;
  label : text;
  content : text
}.

(** A compiled pattern, through [pattern.finditer(text)]: the [(start, end)]
    offsets of the successive matches. *)
Definition pattern := text -> list (Z * Z).

(** One aggregated entity of a NER pipeline. *)
Record entity := mk_entity {
  entity_start : Z;
  entity_end : Z;
  entity_group : text
}.

Definition pipeline := text -> list entity.

(** The state of a [PrivacyGuard] instance: the three compiled patterns and
    the two loaded pipelines. *)
Record PrivacyGuard := mk_guard {
  re_email : pattern;
  re_phone : pattern;
  re_iban : pattern;
  ner_en : pipeline;
  ner_fr : pipeline
}.

Definition models (self : PrivacyGuard) : Dict.t pipeline :=
  [(str "en", ner_en self); (str "fr", ner_fr self)].

Definition regex_patterns (self : PrivacyGuard) : Dict.t pattern :=
  [(str "EMAIL", re_email self);
   (str "PHONE", re_phone self);
   (str "IBAN", re_iban self)].

(** ** Detectors *)

(** [match.group()] is the matched slice of the subject. *)
Definition match_tuple (t : text) (lbl : text) (m : Z * Z) : span :=
  mk_span (fst m) (snd m) lbl (Py.slice t (fst m) (snd m)).

Definition detect_pii_regex (self : PrivacyGuard) (t : text) : list span :=
  flat_map (fun lp => map (match_tuple t (fst lp)) (snd lp t))
           (Dict.items (regex_patterns self)).

Definition entity_tuple (t : text) (e : entity) : span :=
  mk_span (entity_start e) (entity_end e) (entity_group e)
          (Py.slice t (entity_start e) (entity_end e)).

Definition detect_pii_ner (self : PrivacyGuard) (t : text) (language : text)
  : list span :=
  let language :=
    if Dict.mem language (models self) then language else str "en" in
  match Dict.get (models self) language with
  | Some model => map (entity_tuple t) (model t)
  | None => []
  end.

(** ** Reconciliation *)

(** The overlap filter: [last_end] is threaded through the scan. *)
Fixpoint filter_overlaps (last_end : Z) (all_matches : list span) : list span :=
  match all_matches with
  | [] => []
  | m :: rest =>
      if start m >=? last_end
      then m :: filter_overlaps (end_ m) rest
      else filter_overlaps last_end rest
  end.

(** [filtered_matches] for a given enumeration of detector matches. *)
Definition filtered_matches (matches : list span) : list span :=
  filter_overlaps (-1) (Py.sorted start matches).

(** ** Placeholder allocation and substitution *)

Definition placeholder (lbl : text) (n : nat) : text :=
  str "<" ++ lbl ++ str "_" ++ Py.str_of_nat n ++ str ">".

Record subst_state := mk_state {
  mapping_table : Dict.t text;
  sanitized_parts : list text;
  current_idx : Z;
  counts : Dict.t nat
}.

Definition subst_init : subst_state := mk_state Dict.empty [] 0 Dict.empty.

(** One iteration of the substitution loop. *)
Definition subst_step (t : text) (st : subst_state) (m : span) : subst_state :=
  let parts := sanitized_parts st ++ [Py.slice t (current_idx st) (start m)] in
  let counts0 :=
    if Dict.mem (label m) (counts st) then counts st
    else Dict.set (counts st) (label m) 0%nat in
  let n := match Dict.get counts0 (label m) with
           | Some c => S c
           | None => 1%nat
           end in
  let counts1 := Dict.set counts0 (label m) n in
  let ph := placeholder (label m) n in
  mk_state (Dict.set (mapping_table st) ph (content m))
           (parts ++ [ph])
           (end_ m)
           counts1.

Definition subst_loop (t : text) (filtered : list span) : subst_state :=
  fold_left (subst_step t) filtered subst_init.

(** Everything after the detectors have run. *)
Definition anonymize_matches (t : text) (regex_matches ner_matches : list span)
  : text * Dict.t text :=
  let filtered := filtered_matches (regex_matches ++ ner_matches) in
  let st := subst_loop t filtered in
  let parts := sanitized_parts st ++ [Py.slice_from t (current_idx st)] in
  (Py.join parts, mapping_table st).

Definition anonymize (self : PrivacyGuard) (t : text) (language : text)
  : text * Dict.t text :=
  anonymize_matches t (detect_pii_regex self t) (detect_pii_ner self t language).

(** ** Restoration *)

Definition key_len (k : text) : Z := Z.of_nat (length k).

(** The loop over [sorted_keys]; [None] stands for a [KeyError] raised by
    [mapping_table[placeholder]]. *)
Fixpoint restore_loop (table : Dict.t text) (sorted_keys : list text)
         (restored_text : text) : option text :=
  match sorted_keys with
  | [] => Some restored_text
  | ph :: rest =>
      match Dict.get table ph with
      | Some v => restore_loop table rest (Py.replace restored_text ph v)
      | None => None
      end
  end.

Definition restore (sanitized_text : text) (table : Dict.t text) : option text :=
  restore_loop table (Py.sorted_reverse key_len (Dict.keys table)) sanitized_text.

(** * Specification vocabulary *)

Definition key_le {A : Type} (key : A -> Z) (a b : A) : Prop := key a <= key b.

Definition le_start (a b : span) : Prop := start a <= start b.
Definition lt_start (a b : span) : Prop := start a < start b.

(** [b] begins at or after the end of [a]. *)
Definition before (a b : span) : Prop := end_ a <= start b.

Definition nonempty (m : span) : Prop := start m < end_ m.

(** Number of matches labelled [lbl] in a list. *)
Definition occurrences (lbl : text) (ms : list span) : nat :=
  length (filter (fun m => text_eqb (label m) lbl) ms).

(** The placeholders of a sequence of accepted matches, when [seen] lists
    the matches already processed: the next match labelled [lbl] is numbered
    one more than the matches of that label before it. *)
Fixpoint allocate (seen rest : list span) : list text :=
  match rest with
  | [] => []
  | m :: rest' =>
      placeholder (label m) (S (occurrences (label m) seen))
        :: allocate (seen ++ [m]) rest'
  end.

(** The placeholders among [sanitized_parts]: the loop appends a gap and a
    placeholder in turn, so they sit at the odd positions. *)
Fixpoint emitted (parts : list text) : list text :=
  match parts with
  | _ :: ph :: parts' => ph :: emitted parts'
  | _ => []
  end.

(** The table entries of a sequence of accepted matches. *)
Definition entries (seen rest : list span) : Dict.t text :=
  combine (allocate seen rest) (map content rest).

Definition is_digit (c : ascii) : Prop :=
  In c (str "0123456789").

(** [sanitized_parts] as the loop extends it from cursor [cur]. *)
Fixpoint parts_of (t : text) (cur : Z) (seen rest : list span) : list text :=
  match rest with
  | [] => []
  | m :: rest' =>
      Py.slice t cur (start m)
        :: placeholder (label m) (S (occurrences (label m) seen))
        :: parts_of t (end_ m) (seen ++ [m]) rest'
  end.

(** The counters after the matches [seen]: a label is present once it has
    occurred, with its number of occurrences. *)
Definition counts_ok (seen : list span) (c : Dict.t nat) : Prop :=
  forall lbl, Dict.get c lbl =
              match occurrences lbl seen with
              | O => None
              | S k => Some (S k)
              end.

Definition set_entry (d : Dict.t text) (kv : text * text) : Dict.t text :=
  Dict.set d (fst kv) (snd kv).

(** [k] occurs in [s] as a substring. *)
Definition occurs (k s : text) : Prop := exists a b, s = a ++ k ++ b.

(** [k1] is a proper prefix of [k2]. *)
Definition proper_prefix (k1 k2 : text) : Prop :=
  exists r, r <> [] /\ k2 = k1 ++ r.

(** [a] is processed before [b] in the sequence [l]. *)
Definition precedes {A : Type} (a b : A) (l : list A) : Prop :=
  exists l1 l2 l3, l = l1 ++ a :: l2 ++ b :: l3.

Definition longer_first (a b : text) : Prop := (length b <= length a)%nat.

(** A label that contains neither angle bracket. *)
Definition plain (lbl : text) : Prop :=
  ~ In "<"%char lbl /\ ~ In ">"%char lbl.

(** A token that opens with its only ["<"] and closes with its only [">"]. *)
Definition shaped (p : text) : Prop :=
  exists body, p = "<"%char :: body ++ [">"%char] /\
               ~ In "<"%char body /\ ~ In ">"%char body.

(** The Span invariant of the data model, with an empty span allowed:
    offsets within the text, content equal to the slice they delimit. *)
Definition well_formed (t : text) (m : span) : Prop :=
  0 <= start m <= end_ m /\ end_ m <= Z.of_nat (length t) /\
  content m = Py.slice t (start m) (end_ m).

(** Matches laid out left to right from the cursor [cur]. *)
Fixpoint chain (t : text) (cur : Z) (l : list span) : Prop :=
  match l with
  | [] => 0 <= cur <= Z.of_nat (length t)
  | m :: l' => 0 <= cur <= start m /\ well_formed t m /\ chain t (end_ m) l'
  end.

(** The sanitized text in which the placeholders satisfying [done] have
    been replaced by their contents. *)
Fixpoint render (done : text -> bool) (t : text) (cur : Z)
         (seen rest : list span) : text :=
  match rest with
  | [] => Py.slice_from t cur
  | m :: rest' =>
      let ph := placeholder (label m) (S (occurrences (label m) seen)) in
      Py.slice t cur (start m)
        ++ (if done ph then content m else ph)
        ++ render done t (end_ m) (seen ++ [m]) rest'
  end.

(** Decision procedure for [occurs]. *)
Fixpoint occursb (k s : text) : bool :=
  Py.startswith k s ||
  match s with
  | [] => false
  | _ :: s' => occursb k s'
  end.

(** ** The properties under study, as stated *)

(** Round trip through a guard. *)
Definition round_trip (self : PrivacyGuard) (t language : text) : Prop :=
  restore (fst (anonymize self t language)) (snd (anonymize self t language))
  = Some t.

(** The accepted span set: pairwise non-overlapping, strictly increasing
    starts, drawn unchanged from the detector matches. *)
Definition accepted_set (matches : list span) : Prop :=
  StronglySorted before (filtered_matches matches) /\
  StronglySorted lt_start (filtered_matches matches) /\
  exists rejected, Permutation (filtered_matches matches ++ rejected) matches.

(** A span outside the text, or with [start >= end]. *)
Definition malformed (t : text) (m : span) : Prop :=
  start m < 0 \/ Z.of_nat (length t) < end_ m \/ end_ m <= start m.

Definition rejects_malformed (t : text) (matches : list span) : Prop :=
  forall m, In m matches -> malformed t m -> ~ In m (filtered_matches matches).

(** [inner] lies within [outer] and is not the same interval. *)
Definition nested (inner outer : span) : Prop :=
  start outer <= start inner /\ end_ inner <= end_ outer /\
  (start outer < start inner \/ end_ inner < end_ outer).

Definition outer_always_wins (inner outer : span) : Prop :=
  nested inner outer ->
  filtered_matches [outer; inner] = [outer] /\
  filtered_matches [inner; outer] = [outer].

(** Restoration when table and text disagree. *)
Definition mismatch_harmless : Prop :=
  (forall s table, restore s table <> None) /\
  (forall s table p r,
      occurs p s -> Dict.get table p = None -> restore s table = Some r ->
      occurs p r) /\
  (forall s table k v,
      ~ occurs k s -> Dict.get table k = None ->
      restore s (Dict.set table k v) = restore s table) /\
  (forall s, restore s Dict.empty = Some s).

(** ** Fixtures *)

(** A guard whose patterns match nothing and whose English pipeline reports
    the given entities. *)
Definition ner_only (entities : list entity) : PrivacyGuard :=
  mk_guard (fun _ => []) (fun _ => []) (fun _ => [])
           (fun _ => entities) (fun _ => []).

(** A guard with fixed pattern matches and fixed English entities. *)
Definition fixed_guard (email phone iban : list (Z * Z)) (entities : list entity)
  : PrivacyGuard :=
  mk_guard (fun _ => email) (fun _ => phone) (fun _ => iban)
           (fun _ => entities) (fun _ => []).

Definition span_A : span := mk_span 0 5 (str "A") (str "hello").
Definition span_B : span := mk_span 3 8 (str "B") (str "lo wo").

(** The stress text of the script, with the twelve names and the city as
    the English pipeline's entities. *)
Definition text_stress : text :=
  str "John, Paul, George, Ringo, Mick, Keith, Charlie, Ronnie, Freddie, Brian, Roger, Pete live in London.".

Definition stress_guard : PrivacyGuard :=
  ner_only
    [mk_entity 0 4 (str "PER"); mk_entity 6 10 (str "PER");
     mk_entity 12 18 (str "PER"); mk_entity 20 25 (str "PER");
     mk_entity 27 31 (str "PER"); mk_entity 33 38 (str "PER");
     mk_entity 40 47 (str "PER"); mk_entity 49 55 (str "PER");
     mk_entity 57 64 (str "PER"); mk_entity 66 71 (str "PER");
     mk_entity 73 78 (str "PER"); mk_entity 80 84 (str "PER");
     mk_entity 93 99 (str "LOC")].


(** ** Further vocabulary *)

(** The pipeline that [detect_pii_ner] runs for a language selector. *)
Definition selected_pipeline (self : PrivacyGuard) (language : text) : pipeline :=
  if text_eqb language (str "fr") then ner_fr self else ner_en self.

(** Offsets within the text, in order. *)
Definition within (t : text) (m : span) : Prop :=
  0 <= start m <= end_ m /\ end_ m <= Z.of_nat (length t).

(** [a] is in conflict with the later-sorted match [m]: it starts no later
    and ends after the start of [m]. *)
Definition conflicts (a m : span) : Prop :=
  start a <= start m /\ start m < end_ a.

(** ** Reading a placeholder *)

(** The value of a decimal digit. *)
Definition digit_value (c : ascii) : option nat :=
  if Ascii.eqb c "0" then Some 0%nat
  else if Ascii.eqb c "1" then Some 1%nat
  else if Ascii.eqb c "2" then Some 2%nat
  else if Ascii.eqb c "3" then Some 3%nat
  else if Ascii.eqb c "4" then Some 4%nat
  else if Ascii.eqb c "5" then Some 5%nat
  else if Ascii.eqb c "6" then Some 6%nat
  else if Ascii.eqb c "7" then Some 7%nat
  else if Ascii.eqb c "8" then Some 8%nat
  else if Ascii.eqb c "9" then Some 9%nat
  else None.

(** The number written by a string of decimal digits, most significant
    digit first, continuing from [acc]. *)
Fixpoint decimal_value_from (acc : nat) (s : text) : option nat :=
  match s with
  | [] => Some acc
  | c :: s' =>
      match digit_value c with
      | Some d => decimal_value_from (10 * acc + d) s'
      | None => None
      end
  end.

(** The number written by a non-empty string of decimal digits. *)
Definition decimal_value (s : text) : option nat :=
  match s with
  | [] => None
  | _ :: _ => decimal_value_from 0 s
  end.

(** A positive number in decimal: digits only, the first one not ["0"]. *)
Definition canonical_decimal (s : text) : Prop :=
  Forall is_digit s /\ exists c rest, s = c :: rest /\ c <> "0"%char.

(** * Properties *)

(** ** The stable sort *)

Section SortedFacts.
Context {A : Type} (key : A -> Z).

Lemma insert_by_perm (x : A) (l : list A) :
  Permutation (Py.insert_by key x l) (x :: l).
Proof.
  induction l as [|y l IH]; simpl; [reflexivity|].
  destruct (key x <=? key y); [reflexivity|].
  rewrite IH. apply perm_swap.
Qed.

Lemma sorted_perm (l : list A) : Permutation (Py.sorted key l) l.
Proof.
  induction l as [|x l IH]; simpl; [constructor|].
  rewrite insert_by_perm. now constructor.
Qed.

Lemma insert_by_ascending (x : A) (l : list A) :
  StronglySorted (key_le key) l -> StronglySorted (key_le key) (Py.insert_by key x l).
Proof.
  induction l as [|y l IH]; simpl; intros Hs.
  - repeat constructor.
  - inversion Hs as [|? ? Hl Hy]; subst.
    destruct (key x <=? key y) eqn:E.
    + constructor; [assumption|].
      apply Z.leb_le in E. constructor; [exact E|].
      eapply Forall_impl; [|exact Hy]. unfold key_le. intros; lia.
    + apply Z.leb_gt in E. constructor; [auto|].
      eapply Permutation_Forall; [symmetry; apply insert_by_perm|].
      constructor; [unfold key_le; lia|assumption].
Qed.

Lemma sorted_ascending (l : list A) : StronglySorted (key_le key) (Py.sorted key l).
Proof.
  induction l as [|x l IH]; simpl; [constructor|].
  now apply insert_by_ascending.
Qed.

(** Stability: the elements of any one key keep their input order. *)
Lemma insert_by_filter (k : Z) (x : A) (l : list A) :
  filter (fun y => key y =? k) (Py.insert_by key x l) =
  filter (fun y => key y =? k) (x :: l).
Proof.
  induction l as [|y l IH]; [reflexivity|].
  cbn [Py.insert_by]. destruct (key x <=? key y) eqn:E; [reflexivity|].
  apply Z.leb_gt in E. cbn [filter] in *. rewrite IH.
  destruct (key x =? k) eqn:Ex, (key y =? k) eqn:Ey; try reflexivity.
  apply Z.eqb_eq in Ex, Ey. lia.
Qed.

Lemma sorted_stable (k : Z) (l : list A) :
  filter (fun y => key y =? k) (Py.sorted key l) =
  filter (fun y => key y =? k) l.
Proof.
  induction l as [|x l IH]; [reflexivity|].
  cbn [Py.sorted fold_right]. rewrite insert_by_filter.
  cbn [filter]. fold (Py.sorted key l). now rewrite IH.
Qed.

Lemma find_filter (p : A -> bool) (l : list A) :
  find p l = hd_error (filter p l).
Proof.
  induction l as [|x l IH]; [reflexivity|].
  simpl. now destruct (p x).
Qed.

Lemma sorted_find (k : Z) (l : list A) :
  find (fun y => key y =? k) (Py.sorted key l) =
  find (fun y => key y =? k) l.
Proof. now rewrite !find_filter, sorted_stable. Qed.

End SortedFacts.

(** ** The overlap filter *)




Lemma filter_overlaps_In (y : span) (l : list span) :
  forall last, In y (filter_overlaps last l) -> In y l.
Proof.
  induction l as [|m l IH]; simpl; intros last H; [assumption|].
  destruct (start m >=? last).
  - destruct H as [H|H]; [now left|right; eauto].
  - right; eauto.
Qed.

Lemma filter_overlaps_Forall (P : span -> Prop) (l : list span) :
  forall last, Forall P l -> Forall P (filter_overlaps last l).
Proof.
  intros last H. apply Forall_forall. intros y Hy.
  apply filter_overlaps_In in Hy. rewrite Forall_forall in H. auto.
Qed.

Lemma filter_overlaps_strong (R : span -> span -> Prop) (l : list span) :
  forall last, StronglySorted R l -> StronglySorted R (filter_overlaps last l).
Proof.
  induction l as [|m l IH]; simpl; intros last Hs; [constructor|].
  inversion Hs; subst.
  destruct (start m >=? last); [|auto].
  constructor; [auto|]. now apply filter_overlaps_Forall.
Qed.

(** The first accepted match starts at or after [last_end]. *)
Lemma filter_overlaps_head (l : list span) :
  forall last x rest, filter_overlaps last l = x :: rest -> last <= start x.
Proof.
  induction l as [|m l IH]; simpl; intros last x rest H; [discriminate|].
  destruct (start m >=? last) eqn:E.
  - injection H as <- _. apply Z.geb_le in E. exact E.
  - eauto.
Qed.

Lemma filter_overlaps_adjacent (l : list span) :
  forall last, Sorted before (filter_overlaps last l).
Proof.
  induction l as [|m l IH]; simpl; intros last; [constructor|].
  destruct (start m >=? last); [|apply IH].
  constructor; [apply IH|].
  destruct (filter_overlaps (end_ m) l) as [|x rest] eqn:E; constructor.
  unfold before. eapply filter_overlaps_head; eassumption.
Qed.

(** The accepted and the rejected matches together are the scanned ones. *)
Lemma filter_overlaps_drawn (l : list span) :
  forall last, exists rejected,
    Permutation (filter_overlaps last l ++ rejected) l.
Proof.
  induction l as [|m l IH]; simpl; intros last.
  - exists []. constructor.
  - destruct (start m >=? last).
    + destruct (IH (end_ m)) as [r Hr]. exists r. simpl. now constructor.
    + destruct (IH last) as [r Hr]. exists (m :: r).
      rewrite <- Hr at 2. symmetry. apply Permutation_middle.
Qed.

Lemma adjacent_pairwise (l : list span) :
  Sorted before l -> StronglySorted le_start l -> StronglySorted before l.
Proof.
  induction l as [|a l IH]; intros Ha Hs; [constructor|].
  inversion Ha as [|? ? Ha' Hd]; subst. inversion Hs as [|? ? Hs' Hf]; subst.
  constructor; [auto|].
  destruct l as [|x l]; [constructor|].
  inversion Hd; subst. inversion Hs' as [|? ? _ Hx]; subst.
  constructor; [assumption|].
  eapply Forall_impl; [|exact Hx]. unfold before, le_start in *. intros; lia.
Qed.

Lemma adjacent_strict (l : list span) :
  Forall nonempty l -> Sorted before l -> StronglySorted lt_start l.
Proof.
  intros Hn Ha. apply Sorted_StronglySorted.
  - unfold lt_start. intros a b c; lia.
  - induction Ha as [|a l Ha IH Hd]; [constructor|].
    inversion Hn; subst. constructor; [auto|].
    destruct Hd; constructor. unfold before, lt_start, nonempty in *. lia.
Qed.

(** In a scan of matches sorted by start, whatever is accepted starts at or
    after [last_end]. *)
Lemma filter_overlaps_after (l : list span) :
  forall last y, StronglySorted le_start l ->
    In y (filter_overlaps last l) -> last <= start y.
Proof.
  induction l as [|m l IH]; simpl; intros last y Hs Hy; [contradiction|].
  inversion Hs as [|? ? Hs' Hf]; subst.
  destruct (start m >=? last) eqn:E; [|eauto].
  apply Z.geb_le in E. destruct Hy as [<-|Hy]; [exact E|].
  apply filter_overlaps_In in Hy. rewrite Forall_forall in Hf.
  specialize (Hf _ Hy). unfold le_start in Hf. lia.
Qed.

(** An accepted match is the first one, in scan order, of its start offset,
    provided that first one is not empty. *)
Lemma filter_overlaps_first (l : list span) :
  forall last y f, StronglySorted le_start l ->
    In y (filter_overlaps last l) ->
    find (fun x => start x =? start y) l = Some f ->
    nonempty f -> y = f.
Proof.
  induction l as [|m l IH]; simpl; intros last y f Hs Hy Hf Hne; [contradiction|].
  inversion Hs as [|? ? Hs' Hall]; subst.
  destruct (start m =? start y) eqn:Em.
  - injection Hf as <-. apply Z.eqb_eq in Em. unfold nonempty in Hne.
    destruct (start m >=? last) eqn:E.
    + destruct Hy as [Hy|Hy]; [now symmetry|].
      apply filter_overlaps_after in Hy; [lia|assumption].
    + rewrite Z.geb_leb in E. apply Z.leb_gt in E.
      apply filter_overlaps_after in Hy; [lia|assumption].
  - apply Z.eqb_neq in Em.
    destruct (start m >=? last).
    + destruct Hy as [Hy|Hy]; [subst; lia|eauto].
    + eauto.
Qed.

(** When a match of some start offset is accepted, the first match of that
    offset, in scan order, is accepted. *)
Lemma filter_overlaps_first_accepted (l : list span) :
  forall last y f, StronglySorted le_start l ->
    In y (filter_overlaps last l) ->
    find (fun x => start x =? start y) l = Some f ->
    In f (filter_overlaps last l).
Proof.
  induction l as [|m l IH]; simpl; intros last y f Hs Hy Hf; [contradiction|].
  inversion Hs as [|? ? Hs' Hall]; subst.
  destruct (start m =? start y) eqn:Em.
  - injection Hf as <-. apply Z.eqb_eq in Em.
    destruct (start m >=? last) eqn:E; [now left|].
    rewrite Z.geb_leb in E. apply Z.leb_gt in E.
    apply filter_overlaps_after in Hy; [lia|assumption].
  - apply Z.eqb_neq in Em.
    destruct (start m >=? last).
    + destruct Hy as [Hy|Hy]; [subst; lia|right; eauto].
    + eauto.
Qed.

(** ** Reconciliation of a list of detector matches *)

Lemma filtered_matches_In (y : span) (matches : list span) :
  In y (filtered_matches matches) -> In y matches.
Proof.
  intros H. apply filter_overlaps_In in H.
  eapply Permutation_in; [apply sorted_perm|exact H].
Qed.

Lemma filtered_matches_pairwise (matches : list span) :
  StronglySorted before (filtered_matches matches).
Proof.
  apply adjacent_pairwise.
  - apply filter_overlaps_adjacent.
  - apply filter_overlaps_strong. apply (sorted_ascending start).
Qed.

Lemma filtered_matches_drawn (matches : list span) :
  exists rejected, Permutation (filtered_matches matches ++ rejected) matches.
Proof.
  destruct (filter_overlaps_drawn (Py.sorted start matches) (-1)) as [r Hr].
  exists r. unfold filtered_matches. rewrite Hr. apply sorted_perm.
Qed.

Lemma filtered_matches_first (matches : list span) (y f : span) :
  In y (filtered_matches matches) ->
  find (fun x => start x =? start y) matches = Some f ->
  nonempty f -> y = f.
Proof.
  intros Hy Hf Hne.
  eapply filter_overlaps_first; eauto.
  - apply (sorted_ascending start).
  - now rewrite (sorted_find start).
Qed.

Lemma filtered_matches_first_accepted (matches : list span) (y f : span) :
  In y (filtered_matches matches) ->
  find (fun x => start x =? start y) matches = Some f ->
  In f (filtered_matches matches).
Proof.
  intros Hy Hf.
  eapply filter_overlaps_first_accepted; eauto.
  - apply (sorted_ascending start).
  - now rewrite (sorted_find start).
Qed.

Lemma find_app_first {A : Type} (p : A -> bool) (l1 l2 : list A) (m : A) :
  In m l1 -> p m = true ->
  exists f, find p (l1 ++ l2) = Some f /\ In f l1.
Proof.
  induction l1 as [|x l1 IH]; simpl; intros Hin Hp; [contradiction|].
  destruct (p x) eqn:Ex.
  - exists x. auto.
  - destruct Hin as [->|Hin]; [congruence|].
    destruct (IH Hin Hp) as [f [Hf Hfin]]. exists f. auto.
Qed.

(** ** Placeholders *)

Lemma text_eqb_eq (a b : text) : text_eqb a b = true <-> a = b.
Proof. unfold text_eqb. destruct (list_eq_dec ascii_dec a b); split; congruence. Qed.

Lemma text_eqb_refl (a : text) : text_eqb a a = true.
Proof. now apply text_eqb_eq. Qed.

Lemma text_eqb_neq (a b : text) : text_eqb a b = false <-> a <> b.
Proof. unfold text_eqb. destruct (list_eq_dec ascii_dec a b); split; congruence. Qed.

Lemma str_inj (s1 s2 : string) : str s1 = str s2 -> s1 = s2.
Proof.
  unfold str. intros H.
  rewrite <- (string_of_list_ascii_of_string s1), H.
  apply string_of_list_ascii_of_string.
Qed.

Lemma str_of_nat_inj (n1 n2 : nat) :
  Py.str_of_nat n1 = Py.str_of_nat n2 -> n1 = n2.
Proof.
  unfold Py.str_of_nat. intros H. apply str_inj in H.
  apply Unsigned.to_uint_inj.
  assert (E : Some (Nat.to_uint n1) = Some (Nat.to_uint n2))
    by (rewrite <- !NilEmpty.usu; now rewrite H).
  now injection E.
Qed.

Lemma string_of_uint_digits (d : uint) :
  Forall is_digit (str (NilEmpty.string_of_uint d)).
Proof.
  induction d; simpl; constructor; try assumption;
    unfold is_digit; simpl; tauto.
Qed.

Lemma str_of_nat_digits (n : nat) : Forall is_digit (Py.str_of_nat n).
Proof. apply string_of_uint_digits. Qed.

Lemma digit_not_special (c : ascii) :
  is_digit c -> c <> "_"%char /\ c <> "<"%char /\ c <> ">"%char.
Proof.
  unfold is_digit. simpl. intros H.
  repeat (destruct H as [<-|H]; [repeat split; discriminate|]).
  contradiction.
Qed.

(** A text splits in one way only at a character absent from what follows. *)
Lemma split_at_last (c : ascii) (a1 a2 b1 b2 : text) :
  ~ In c b1 -> ~ In c b2 ->
  a1 ++ c :: b1 = a2 ++ c :: b2 -> a1 = a2 /\ b1 = b2.
Proof.
  revert a2. induction a1 as [|x a1 IH]; intros [|y a2] H1 H2 E; simpl in E.
  - injection E as E. auto.
  - injection E as <- E. exfalso. apply H1. rewrite E.
    apply in_or_app. right. now left.
  - injection E as -> E. exfalso. apply H2. rewrite <- E.
    apply in_or_app. right. now left.
  - injection E as <- E. destruct (IH a2 H1 H2 E) as [-> ->]. auto.
Qed.

Lemma placeholder_inj (l1 l2 : text) (n1 n2 : nat) :
  placeholder l1 n1 = placeholder l2 n2 -> l1 = l2 /\ n1 = n2.
Proof.
  unfold placeholder. cbn [str list_ascii_of_string app]. intros E.
  injection E as E.
  assert (Hn : forall n, ~ In "_"%char (Py.str_of_nat n ++ [">"%char])).
  { intros n Hin. apply in_app_or in Hin. destruct Hin as [Hin|Hin].
    - pose proof (str_of_nat_digits n) as Hd. rewrite Forall_forall in Hd.
      apply Hd, digit_not_special in Hin. tauto.
    - simpl in Hin. destruct Hin as [Hin|[]]. discriminate. }
  apply split_at_last in E; [|apply Hn|apply Hn].
  destruct E as [-> E]. apply app_inv_tail in E.
  split; [reflexivity|now apply str_of_nat_inj].
Qed.

(** ** Dictionaries *)

Lemma get_set_same {V : Type} (d : Dict.t V) (k : text) (v : V) :
  Dict.get (Dict.set d k v) k = Some v.
Proof.
  induction d as [|[k' v'] d IH]; simpl.
  - now rewrite text_eqb_refl.
  - destruct (text_eqb k k') eqn:E; simpl; rewrite E; [reflexivity|exact IH].
Qed.

Lemma get_set_other {V : Type} (d : Dict.t V) (k k' : text) (v : V) :
  k <> k' -> Dict.get (Dict.set d k v) k' = Dict.get d k'.
Proof.
  intros Hne. induction d as [|[k0 v0] d IH]; simpl.
  - apply not_eq_sym, text_eqb_neq in Hne. now rewrite Hne.
  - destruct (text_eqb k k0) eqn:E; simpl.
    + apply text_eqb_eq in E. subst k0.
      apply not_eq_sym, text_eqb_neq in Hne. now rewrite Hne.
    + now rewrite IH.
Qed.

Lemma get_None_keys {V : Type} (d : Dict.t V) (k : text) :
  Dict.get d k = None <-> ~ In k (Dict.keys d).
Proof.
  unfold Dict.keys. induction d as [|[k' v'] d IH]; simpl; [tauto|].
  destruct (text_eqb k k') eqn:E.
  - apply text_eqb_eq in E. subst. split; [discriminate|].
    intros H. exfalso. apply H. now left.
  - apply text_eqb_neq in E. rewrite IH. split; intros H.
    + intros [H'|H']; [congruence|]. exact (H H').
    + intros H'. apply H. now right.
Qed.

Lemma set_fresh {V : Type} (d : Dict.t V) (k : text) (v : V) :
  ~ In k (Dict.keys d) -> Dict.set d k v = d ++ [(k, v)].
Proof.
  unfold Dict.keys. induction d as [|[k' v'] d IH]; simpl; intros H; [reflexivity|].
  destruct (text_eqb k k') eqn:E.
  - apply text_eqb_eq in E. subst. exfalso. apply H. now left.
  - rewrite IH; [reflexivity|]. intros H'. apply H. now right.
Qed.

(** ** The substitution loop *)

Lemma occurrences_app (lbl : text) (l1 l2 : list span) :
  occurrences lbl (l1 ++ l2) = (occurrences lbl l1 + occurrences lbl l2)%nat.
Proof. unfold occurrences. now rewrite filter_app, length_app. Qed.

Lemma occurrences_snoc_same (m : span) (seen : list span) :
  occurrences (label m) (seen ++ [m]) = S (occurrences (label m) seen).
Proof.
  rewrite occurrences_app. unfold occurrences at 2. simpl.
  rewrite text_eqb_refl. simpl. lia.
Qed.

Lemma occurrences_snoc_other (lbl : text) (m : span) (seen : list span) :
  label m <> lbl -> occurrences lbl (seen ++ [m]) = occurrences lbl seen.
Proof.
  intros H. rewrite occurrences_app. unfold occurrences at 2. simpl.
  apply text_eqb_neq in H. rewrite H. simpl. lia.
Qed.

(** One iteration, under the counter invariant. *)
Lemma subst_step_spec (t : text) (seen : list span) (st : subst_state) (m : span) :
  counts_ok seen (counts st) ->
  let ph := placeholder (label m) (S (occurrences (label m) seen)) in
  let st' := subst_step t st m in
  mapping_table st' = Dict.set (mapping_table st) ph (content m) /\
  sanitized_parts st' =
    sanitized_parts st ++ [Py.slice t (current_idx st) (start m); ph] /\
  current_idx st' = end_ m /\
  counts_ok (seen ++ [m]) (counts st').
Proof.
  intros Hc. pose proof (Hc (label m)) as Hl.
  assert (Hn : match
             Dict.get (if Dict.mem (label m) (counts st) then counts st
                       else Dict.set (counts st) (label m) 0%nat) (label m)
           with Some c => S c | None => 1%nat end
           = S (occurrences (label m) seen)).
  { unfold Dict.mem. rewrite Hl.
    destruct (occurrences (label m) seen).
    - now rewrite get_set_same.
    - now rewrite Hl. }
  cbv zeta. unfold subst_step. cbn [mapping_table sanitized_parts current_idx counts].
  rewrite Hn. repeat split.
  - now rewrite <- app_assoc.
  - intros lbl. destruct (list_eq_dec ascii_dec (label m) lbl) as [<-|Hne].
    + now rewrite get_set_same, occurrences_snoc_same.
    + rewrite get_set_other by assumption.
      rewrite occurrences_snoc_other by assumption.
      unfold Dict.mem. destruct (Dict.get (counts st) (label m)); [apply Hc|].
      rewrite get_set_other by assumption. apply Hc.
Qed.

Lemma subst_fold_spec (t : text) (l : list span) :
  forall (seen : list span) (st : subst_state),
    counts_ok seen (counts st) ->
    let st' := fold_left (subst_step t) l st in
    mapping_table st' = fold_left set_entry (entries seen l) (mapping_table st) /\
    sanitized_parts st' =
      sanitized_parts st ++ parts_of t (current_idx st) seen l /\
    current_idx st' = fold_left (fun _ m => end_ m) l (current_idx st).
Proof.
  induction l as [|m l IH]; intros seen st Hc; cbn [fold_left].
  - cbv zeta. unfold entries. simpl. now rewrite app_nil_r.
  - destruct (subst_step_spec t seen st m Hc) as (Ht & Hp & Hi & Hc').
    destruct (IH (seen ++ [m]) (subst_step t st m) Hc') as (Ht' & Hp' & Hi').
    cbv zeta. rewrite Ht', Hp', Hi', Ht, Hp, Hi.
    repeat split. cbn [parts_of]. now rewrite <- app_assoc.
Qed.

Lemma counts_ok_init : counts_ok [] (counts subst_init).
Proof. intros lbl. reflexivity. Qed.

Lemma emitted_parts_of (t : text) (l : list span) :
  forall cur seen, emitted (parts_of t cur seen l) = allocate seen l.
Proof.
  induction l as [|m l IH]; intros cur seen; simpl; [reflexivity|].
  now rewrite IH.
Qed.

(** ** Allocation *)

Lemma allocate_length (l : list span) :
  forall seen, length (allocate seen l) = length l.
Proof. induction l as [|m l IH]; intros seen; simpl; [reflexivity|now rewrite IH]. Qed.

(** A placeholder allocated after [seen] is numbered above the occurrences
    of its label in [seen]. *)
Lemma allocate_above (l : list span) :
  forall seen p, In p (allocate seen l) ->
    exists lbl n, p = placeholder lbl n /\ (occurrences lbl seen < n)%nat.
Proof.
  induction l as [|m l IH]; intros seen p H; simpl in H; [contradiction|].
  destruct H as [<-|H].
  - exists (label m), (S (occurrences (label m) seen)). split; [reflexivity|lia].
  - destruct (IH _ _ H) as (lbl & n & -> & Hn).
    exists lbl, n. split; [reflexivity|].
    rewrite occurrences_app in Hn. lia.
Qed.

Lemma allocate_NoDup (l : list span) : forall seen, NoDup (allocate seen l).
Proof.
  induction l as [|m l IH]; intros seen; simpl; constructor; [|apply IH].
  intros H. apply allocate_above in H. destruct H as (lbl & n & E & Hn).
  apply placeholder_inj in E. destruct E as [<- <-].
  rewrite occurrences_snoc_same in Hn. lia.
Qed.

Lemma firstn_snoc {A : Type} (l : list A) :
  forall i x, nth_error l i = Some x -> firstn (S i) l = firstn i l ++ [x].
Proof.
  induction l as [|y l IH]; intros [|i] x H; simpl in H; try discriminate.
  - now injection H as <-.
  - rewrite firstn_cons, (IH i x H). reflexivity.
Qed.

Lemma occurrences_firstn_le (lbl : text) (l : list span) (a b : nat) :
  (a <= b)%nat ->
  (occurrences lbl (firstn a l) <= occurrences lbl (firstn b l))%nat.
Proof.
  intros Hab. rewrite <- (firstn_skipn a (firstn b l)) at 1.
  rewrite firstn_firstn, Nat.min_l by assumption.
  rewrite occurrences_app. lia.
Qed.

Lemma allocate_nth (l : list span) :
  forall seen i m, nth_error l i = Some m ->
    nth_error (allocate seen l) i =
    Some (placeholder (label m) (occurrences (label m) (seen ++ firstn (S i) l))).
Proof.
  induction l as [|x l IH]; intros seen [|i] m H; simpl in H; try discriminate.
  - injection H as ->. simpl. now rewrite occurrences_snoc_same.
  - cbn [allocate nth_error]. rewrite (IH _ _ _ H).
    rewrite <- app_assoc. reflexivity.
Qed.

(** ** The restoration table built by the loop *)

Lemma fold_set_entry_fresh (es : Dict.t text) :
  forall d, NoDup (Dict.keys d ++ Dict.keys es) ->
    fold_left set_entry es d = d ++ es.
Proof.
  unfold Dict.keys.
  induction es as [|[k v] es IH]; intros d H; simpl.
  - now rewrite app_nil_r.
  - unfold set_entry at 2. cbn [fst snd]. simpl in H.
    rewrite set_fresh.
    + rewrite IH; [now rewrite <- app_assoc|].
      rewrite map_app, <- app_assoc. exact H.
    + apply NoDup_remove_2 in H. intros Hin. apply H.
      apply in_or_app. now left.
Qed.

Lemma entries_keys (seen l : list span) :
  Dict.keys (entries seen l) = allocate seen l.
Proof.
  unfold Dict.keys, entries.
  assert (H : length (allocate seen l) = length (map content l))
    by now rewrite allocate_length, length_map.
  revert H. generalize (map content l), (allocate seen l).
  intros cs ps. revert cs. induction ps as [|p ps IH]; intros [|c cs] H;
    simpl in *; try discriminate; [reflexivity|]. f_equal. apply IH. lia.
Qed.

Lemma subst_loop_table (t : text) (filtered : list span) :
  mapping_table (subst_loop t filtered) = entries [] filtered.
Proof.
  unfold subst_loop.
  destruct (subst_fold_spec t filtered [] subst_init counts_ok_init) as (Ht & _).
  rewrite Ht. cbn [subst_init mapping_table Dict.empty].
  rewrite fold_set_entry_fresh; [reflexivity|].
  simpl. rewrite entries_keys. apply allocate_NoDup.
Qed.

Lemma subst_loop_parts (t : text) (filtered : list span) :
  sanitized_parts (subst_loop t filtered) = parts_of t 0 [] filtered.
Proof.
  unfold subst_loop.
  destruct (subst_fold_spec t filtered [] subst_init counts_ok_init) as (_ & Hp & _).
  rewrite Hp. reflexivity.
Qed.

Lemma subst_loop_emitted (t : text) (filtered : list span) :
  emitted (sanitized_parts (subst_loop t filtered)) = allocate [] filtered.
Proof. rewrite subst_loop_parts. apply emitted_parts_of. Qed.

(** ** [str.replace] *)

Lemma startswith_app (p r : text) : Py.startswith p (p ++ r) = true.
Proof.
  induction p as [|c p IH]; simpl; [reflexivity|].
  now rewrite Ascii.eqb_refl, IH.
Qed.

Lemma startswith_true (p s : text) :
  Py.startswith p s = true -> exists r, s = p ++ r.
Proof.
  revert s. induction p as [|c p IH]; intros s H; simpl in *.
  - now exists s.
  - destruct s as [|d s]; [discriminate|].
    apply andb_prop in H. destruct H as [Hc Hp].
    apply Ascii.eqb_eq in Hc. subst d.
    destruct (IH _ Hp) as [r ->]. now exists r.
Qed.

Lemma startswith_false (p s : text) :
  (forall r, s <> p ++ r) -> Py.startswith p s = false.
Proof.
  intros H. destruct (Py.startswith p s) eqn:E; [|reflexivity].
  apply startswith_true in E. destruct E as [r E]. now apply H in E.
Qed.

Lemma replace_scan_skip (old new a r : text) :
  Py.replace_scan old new (length a) (a ++ r) = Py.replace_scan old new 0%nat r.
Proof. induction a as [|c a IH]; simpl; [now destruct r|exact IH]. Qed.

Lemma replace_scan_hit (old new r : text) :
  old <> [] ->
  Py.replace_scan old new 0%nat (old ++ r) = new ++ Py.replace_scan old new 0%nat r.
Proof.
  destruct old as [|c old]; [congruence|]. intros _.
  change ((c :: old) ++ r) with (c :: (old ++ r)). cbn [Py.replace_scan].
  change (c :: (old ++ r)) with ((c :: old) ++ r). rewrite startswith_app.
  cbn [length]. rewrite Nat.sub_succ, Nat.sub_0_r.
  now rewrite replace_scan_skip.
Qed.

(** The scan copies a stretch in which no occurrence of [old] begins. *)
Lemma replace_scan_pass (old new s r : text) :
  (forall a b, s = a ++ b -> b <> [] -> Py.startswith old (b ++ r) = false) ->
  Py.replace_scan old new 0%nat (s ++ r) = s ++ Py.replace_scan old new 0%nat r.
Proof.
  induction s as [|c s IH]; intros H; [reflexivity|].
  change ((c :: s) ++ r) with (c :: (s ++ r)) at 1. cbn [Py.replace_scan].
  change (c :: (s ++ r)) with ((c :: s) ++ r) at 1.
  rewrite (H [] (c :: s)) by (reflexivity || discriminate).
  change ((c :: s) ++ Py.replace_scan old new 0%nat r)
    with (c :: (s ++ Py.replace_scan old new 0%nat r)).
  f_equal. apply IH. intros a b -> Hb.
  apply (H (c :: a) b); [reflexivity|assumption].
Qed.

Lemma replace_absent (s old new : text) :
  ~ occurs old s -> Py.replace s old new = s.
Proof.
  intros H. destruct old as [|c old].
  - exfalso. apply H. exists [], s. reflexivity.
  - unfold Py.replace.
    rewrite <- (app_nil_r s) at 1. rewrite replace_scan_pass; [now rewrite app_nil_r|].
    intros a b -> _. rewrite app_nil_r. apply startswith_false.
    intros r ->. apply H. exists a, r. reflexivity.
Qed.

(** ** The processing order of [restore] *)

Lemma sorted_reverse_perm (keys : list text) :
  Permutation (Py.sorted_reverse key_len keys) keys.
Proof. apply sorted_perm. Qed.

Lemma sorted_reverse_longer_first (keys : list text) :
  StronglySorted longer_first (Py.sorted_reverse key_len keys).
Proof.
  unfold Py.sorted_reverse.
  pose proof (sorted_ascending (fun x => - key_len x) keys) as H.
  induction H as [|a l Hs IH Hf]; constructor; [assumption|].
  eapply Forall_impl; [|exact Hf].
  unfold key_le, key_len, longer_first. intros; lia.
Qed.

Lemma strongly_sorted_precedes {A : Type} (R : A -> A -> Prop) (l : list A) (a b : A) :
  StronglySorted R l -> In a l -> In b l -> ~ R b a -> a <> b ->
  precedes a b l.
Proof.
  intros Hs Ha Hb Hn Hab.
  apply in_split in Ha. destruct Ha as (l1 & r & ->).
  apply in_app_or in Hb. destruct Hb as [Hb|[Hb|Hb]]; [|congruence|].
  - exfalso. apply Hn. clear Hn Hab.
    induction l1 as [|x l1 IH]; [contradiction|].
    inversion Hs as [|? ? Hs' Hf]; subst.
    destruct Hb as [->|Hb]; [|auto].
    rewrite Forall_forall in Hf. apply Hf. apply in_or_app. right. now left.
  - apply in_split in Hb. destruct Hb as (l2 & l3 & ->).
    now exists l1, l2, l3.
Qed.

Lemma restore_loop_total (table : Dict.t text) (keys : list text) :
  forall s, Forall (fun k => In k (Dict.keys table)) keys ->
    exists r, restore_loop table keys s = Some r.
Proof.
  induction keys as [|k keys IH]; intros s H; simpl.
  - now exists s.
  - inversion H as [|? ? Hk Hr]; subst.
    destruct (Dict.get table k) as [v|] eqn:E.
    + now apply IH.
    + apply get_None_keys in E. contradiction.
Qed.

Lemma restore_total (s : text) (table : Dict.t text) :
  exists r, restore s table = Some r.
Proof.
  apply restore_loop_total. apply Forall_forall. intros k Hk.
  eapply Permutation_in; [apply sorted_reverse_perm|exact Hk].
Qed.

Lemma restore_loop_absent (table : Dict.t text) (keys : list text) (s : text) :
  Forall (fun k => In k (Dict.keys table) /\ ~ occurs k s) keys ->
  restore_loop table keys s = Some s.
Proof.
  induction keys as [|k keys IH]; intros H; simpl; [reflexivity|].
  inversion H as [|? ? [Hk Ho] Hr]; subst.
  destruct (Dict.get table k) as [v|] eqn:E.
  - rewrite replace_absent by assumption. now apply IH.
  - apply get_None_keys in E. contradiction.
Qed.

(** ** Slices with offsets inside the text *)

Lemma firstn_add {A : Type} (n m : nat) (l : list A) :
  firstn (n + m) l = firstn n l ++ firstn m (skipn n l).
Proof.
  revert l. induction n as [|n IH]; intros [|x l]; simpl; try reflexivity.
  - now rewrite firstn_nil.
  - now rewrite IH.
Qed.

Lemma slice_index_inside (len : nat) (i : Z) :
  0 <= i <= Z.of_nat len -> Py.slice_index len i = Z.to_nat i.
Proof.
  intros H. unfold Py.slice_index.
  destruct (i <? 0) eqn:E; [apply Z.ltb_lt in E; lia|]. lia.
Qed.

Lemma slice_inside (t : text) (a b : Z) :
  0 <= a <= b -> b <= Z.of_nat (length t) ->
  Py.slice t a b = firstn (Z.to_nat b - Z.to_nat a) (skipn (Z.to_nat a) t).
Proof.
  intros H1 H2. unfold Py.slice. now rewrite !slice_index_inside by lia.
Qed.

Lemma slice_from_inside (t : text) (a : Z) :
  0 <= a <= Z.of_nat (length t) -> Py.slice_from t a = skipn (Z.to_nat a) t.
Proof. intros H. unfold Py.slice_from. now rewrite slice_index_inside. Qed.

Lemma slice_app (t : text) (a b c : Z) :
  0 <= a <= b -> b <= c -> c <= Z.of_nat (length t) ->
  Py.slice t a b ++ Py.slice t b c = Py.slice t a c.
Proof.
  intros H1 H2 H3. rewrite !slice_inside by lia.
  replace (Z.to_nat c - Z.to_nat a)%nat
    with ((Z.to_nat b - Z.to_nat a) + (Z.to_nat c - Z.to_nat b))%nat by lia.
  rewrite firstn_add, skipn_skipn.
  replace (Z.to_nat b - Z.to_nat a + Z.to_nat a)%nat with (Z.to_nat b) by lia.
  reflexivity.
Qed.

Lemma slice_app_from (t : text) (a b : Z) :
  0 <= a <= b -> b <= Z.of_nat (length t) ->
  Py.slice t a b ++ Py.slice_from t b = Py.slice_from t a.
Proof.
  intros H1 H2. rewrite slice_inside, !slice_from_inside by lia.
  rewrite <- (firstn_skipn (Z.to_nat b - Z.to_nat a) (skipn (Z.to_nat a) t)) at 2.
  rewrite skipn_skipn.
  replace (Z.to_nat b - Z.to_nat a + Z.to_nat a)%nat with (Z.to_nat b) by lia.
  reflexivity.
Qed.

Lemma slice_empty (t : text) (a : Z) :
  0 <= a <= Z.of_nat (length t) -> Py.slice t a a = [].
Proof. intros H. rewrite slice_inside by lia. now rewrite Nat.sub_diag. Qed.

Lemma occurs_skipn (k t : text) (n : nat) : occurs k (skipn n t) -> occurs k t.
Proof.
  intros (a & b & E). exists (firstn n t ++ a), b.
  rewrite <- app_assoc, <- E. symmetry. apply firstn_skipn.
Qed.

Lemma occurs_firstn (k t : text) (n : nat) : occurs k (firstn n t) -> occurs k t.
Proof.
  intros (a & b & E). exists a, (b ++ skipn n t).
  rewrite <- (firstn_skipn n t) at 1. rewrite E, <- !app_assoc. reflexivity.
Qed.

Lemma occurs_slice (k t : text) (a b : Z) : occurs k (Py.slice t a b) -> occurs k t.
Proof. unfold Py.slice. intros H. eapply occurs_skipn, occurs_firstn, H. Qed.

Lemma occurs_slice_from (k t : text) (a : Z) :
  occurs k (Py.slice_from t a) -> occurs k t.
Proof. unfold Py.slice_from. apply occurs_skipn. Qed.

(** ** Shaped tokens *)

Lemma shaped_suffix (p x b : text) :
  shaped p -> p = x ++ b -> x <> [] -> ~ In "<"%char b.
Proof.
  intros (body & -> & Hl & Hr) E Hx Hin.
  destruct x as [|c x]; [congruence|]. injection E as _ E.
  assert (H : In "<"%char (body ++ [">"%char]))
    by (rewrite E; apply in_or_app; now right).
  apply in_app_or in H. destruct H as [H|[H|[]]]; [tauto|discriminate].
Qed.

Lemma shaped_prefix (p x b : text) :
  shaped p -> p = x ++ b -> b <> [] -> ~ In ">"%char x.
Proof.
  intros (body & -> & Hl & Hr) E Hb Hin.
  destruct (exists_last Hb) as (b' & z & ->).
  change ("<"%char :: body ++ [">"%char]) with (("<"%char :: body) ++ [">"%char]) in E.
  rewrite app_assoc in E. apply app_inj_tail in E. destruct E as [E _].
  assert (H : In ">"%char ("<"%char :: body))
    by (rewrite E; apply in_or_app; now left).
  destruct H as [H|H]; [discriminate|tauto].
Qed.

Lemma shaped_head (p : text) : shaped p -> exists p', p = "<"%char :: p'.
Proof. intros (body & -> & _). eauto. Qed.

Lemma shaped_closes (p : text) : shaped p -> In ">"%char p.
Proof.
  intros (body & -> & _). right. apply in_or_app. right. now left.
Qed.

Lemma placeholder_shaped (lbl : text) (n : nat) :
  plain lbl -> shaped (placeholder lbl n).
Proof.
  intros [Hl Hr]. exists (lbl ++ "_"%char :: Py.str_of_nat n).
  pose proof (str_of_nat_digits n) as Hd. rewrite Forall_forall in Hd.
  repeat split.
  - unfold placeholder. cbn [str list_ascii_of_string app].
    now rewrite <- !app_assoc.
  - intros H. apply in_app_or in H. destruct H as [H|[H|H]];
      [tauto|discriminate|]. apply Hd, digit_not_special in H. tauto.
  - intros H. apply in_app_or in H. destruct H as [H|[H|H]];
      [tauto|discriminate|]. apply Hd, digit_not_special in H. tauto.
Qed.

(** No occurrence of a shaped key begins inside a stretch of original text
    that is followed by a pending placeholder. *)
Lemma no_hit_in_literal (k lit q r : text) :
  shaped k -> ~ occurs k lit -> (exists q', q = "<"%char :: q') ->
  forall x b, lit = x ++ b -> b <> [] -> Py.startswith k (b ++ q ++ r) = false.
Proof.
  intros Hk Hocc (q' & ->) x b -> Hb. apply startswith_false. intros r' E.
  apply app_eq_app in E. destruct E as (l & [[E1 E2]|[E1 E2]]).
  - apply Hocc. exists x, l. now rewrite E1.
  - pose proof (shaped_suffix k b l Hk E1 Hb) as Hn.
    destruct l as [|c l].
    + apply Hocc. exists x, []. rewrite app_nil_r in *. now subst.
    + injection E2 as <- _. apply Hn. now left.
Qed.

(** Nor does one begin inside a pending placeholder other than the key. *)
Lemma no_hit_in_placeholder (k q r : text) :
  shaped k -> shaped q -> q <> k ->
  forall x b, q = x ++ b -> b <> [] -> Py.startswith k (b ++ r) = false.
Proof.
  intros Hk Hq Hne x b E Hb. apply startswith_false. intros r' E'.
  destruct x as [|c x].
  - simpl in E. subst b.
    apply app_eq_app in E'. destruct E' as (l & [[E1 E2]|[E1 E2]]).
    + destruct l as [|d l]; [rewrite app_nil_r in E1; congruence|].
      apply (shaped_prefix q k (d :: l) Hq E1); [discriminate|].
      now apply shaped_closes.
    + destruct l as [|d l]; [rewrite app_nil_r in E1; congruence|].
      apply (shaped_prefix k q (d :: l) Hk E1); [discriminate|].
      now apply shaped_closes.
  - assert (Hn : ~ In "<"%char b)
      by (apply (shaped_suffix q (c :: x) b Hq E); discriminate).
    destruct (shaped_head k Hk) as (k' & ->).
    destruct b as [|d b]; [congruence|].
    injection E' as -> _. apply Hn. now left.
Qed.

(** ** One restoration step on a partially restored text *)

Lemma entries_cons (seen : list span) (m : span) (l : list span) :
  entries seen (m :: l) =
  (placeholder (label m) (S (occurrences (label m) seen)), content m)
    :: entries (seen ++ [m]) l.
Proof. reflexivity. Qed.

Section RestoreStep.
Variables (t k v : text).
Hypothesis Hshaped : shaped k.
Hypothesis Habsent : ~ occurs k t.

Lemma replace_render (l : list span) :
  forall cur seen done pre a,
    chain t cur l ->
    Forall (fun m => plain (label m)) l ->
    (forall c, In (k, c) (entries seen l) -> c = v) ->
    0 <= a <= cur -> pre = Py.slice t a cur ->
    Py.replace_scan k v 0%nat (pre ++ render done t cur seen l) =
    pre ++ render (fun p => done p || text_eqb p k) t cur seen l.
Proof.
  induction l as [|m l IH]; intros cur seen done pre a Hch Hpl Hv Ha ->.
  - cbn [render chain] in *. rewrite slice_app_from by lia.
    pose proof (replace_absent (Py.slice_from t a) k v) as H.
    destruct (shaped_head k Hshaped) as (k' & Ek).
    unfold Py.replace in H. rewrite Ek in H. rewrite <- Ek in H.
    apply H. intros Ho. apply Habsent. eapply occurs_slice_from, Ho.
  - cbn [chain] in Hch. destruct Hch as (Hcur & (Hse & Hlen & Hcont) & Hch).
    inversion Hpl as [|? ? Hpm Hpl']; subst.
    rewrite entries_cons in Hv. cbn [render].
    set (ph := placeholder (label m) (S (occurrences (label m) seen))) in *.
    destruct (done ph) eqn:Ed; cbn [orb].
    + rewrite Hcont. rewrite !app_assoc. rewrite !slice_app by lia.
      apply (IH (end_ m) (seen ++ [m]) done _ a); auto; try lia.
      intros c Hc. apply Hv. now right.
    + assert (Hq : shaped ph) by now apply placeholder_shaped.
      rewrite !(app_assoc (Py.slice t a cur) (Py.slice t cur (start m))).
      rewrite !slice_app by lia.
      rewrite replace_scan_pass.
      2:{ apply no_hit_in_literal; [assumption| |now apply shaped_head].
          intros Ho. apply Habsent. eapply occurs_slice, Ho. }
      f_equal.
      assert (Hrest : Py.replace_scan k v 0%nat (render done t (end_ m) (seen ++ [m]) l) =
                      render (fun p => done p || text_eqb p k) t (end_ m)
                             (seen ++ [m]) l).
      { pose proof (IH (end_ m) (seen ++ [m]) done [] (end_ m)) as H.
        cbn [app] in H. apply H; auto; try lia.
        - intros c Hc. apply Hv. now right.
        - symmetry. apply slice_empty. lia. }
      destruct (text_eqb ph k) eqn:Ek.
      * apply text_eqb_eq in Ek.
        rewrite (Hv (content m)) by (left; now rewrite Ek).
        rewrite Ek, replace_scan_hit.
        -- f_equal. exact Hrest.
        -- destruct (shaped_head k Hshaped) as (k' & ->). discriminate.
      * apply text_eqb_neq in Ek.
        rewrite replace_scan_pass.
        -- f_equal. exact Hrest.
        -- now apply no_hit_in_placeholder.
Qed.
End RestoreStep.

(** ** Restoring a sanitized text produced by the loop *)

Lemma render_ext (t : text) (done done' : text -> bool) (l : list span) :
  forall cur seen,
    (forall p, In p (allocate seen l) -> done p = done' p) ->
    render done t cur seen l = render done' t cur seen l.
Proof.
  induction l as [|m l IH]; intros cur seen H; cbn [render]; [reflexivity|].
  rewrite (H _ (or_introl eq_refl)).
  rewrite (IH (end_ m) (seen ++ [m])); [reflexivity|].
  intros p Hp. apply H. now right.
Qed.

Lemma render_all (t : text) (done : text -> bool) (l : list span) :
  forall cur seen,
    chain t cur l ->
    (forall p, In p (allocate seen l) -> done p = true) ->
    render done t cur seen l = Py.slice_from t cur.
Proof.
  induction l as [|m l IH]; intros cur seen Hch H; cbn [render]; [reflexivity|].
  cbn [chain] in Hch. destruct Hch as (Hcur & (Hse & Hlen & Hcont) & Hch).
  rewrite (H _ (or_introl eq_refl)).
  rewrite (IH (end_ m) (seen ++ [m])); [|assumption|intros p Hp; apply H; now right].
  rewrite Hcont, !slice_app_from by lia. reflexivity.
Qed.

Lemma join_parts (t : text) (l : list span) :
  forall cur seen,
    Py.join (parts_of t cur seen l
               ++ [Py.slice_from t (fold_left (fun _ m => end_ m) l cur)]) =
    render (fun _ => false) t cur seen l.
Proof.
  unfold Py.join.
  induction l as [|m l IH]; intros cur seen.
  - simpl. apply app_nil_r.
  - cbn [parts_of render fold_left]. rewrite <- IH. simpl.
    now rewrite <- app_assoc.
Qed.

Lemma allocate_shaped (l : list span) :
  forall seen p, Forall (fun m => plain (label m)) l ->
    In p (allocate seen l) -> shaped p.
Proof.
  induction l as [|m l IH]; intros seen p Hpl H; simpl in H; [contradiction|].
  inversion Hpl; subst. destruct H as [<-|H]; [now apply placeholder_shaped|eauto].
Qed.

Lemma get_In {V : Type} (d : Dict.t V) (k : text) (c v : V) :
  Dict.get d k = Some v -> NoDup (Dict.keys d) -> In (k, c) d -> c = v.
Proof.
  unfold Dict.keys. induction d as [|[k' v'] d IH]; simpl; intros Hg Hn Hi; [contradiction|].
  inversion Hn as [|? ? Hk Hn']; subst.
  destruct (text_eqb k k') eqn:E.
  - apply text_eqb_eq in E. subst k'. injection Hg as <-.
    destruct Hi as [Hi|Hi]; [congruence|].
    exfalso. apply Hk. apply (in_map fst) in Hi. exact Hi.
  - apply text_eqb_neq in E. destruct Hi as [Hi|Hi]; [congruence|auto].
Qed.

Lemma restore_loop_render (t : text) (l : list span) (keys : list text) :
  chain t 0 l ->
  Forall (fun m => plain (label m)) l ->
  forall done,
    Forall (fun k => In k (allocate [] l) /\ ~ occurs k t) keys ->
    restore_loop (entries [] l) keys (render done t 0 [] l) =
    Some (render (fun p => done p || existsb (text_eqb p) keys) t 0 [] l).
Proof.
  intros Hch Hpl. induction keys as [|k keys IH]; intros done Hk; cbn [restore_loop].
  - f_equal. apply render_ext. intros p _. simpl. now rewrite orb_false_r.
  - inversion Hk as [|? ? [Hin Hab] Hk']; subst.
    destruct (Dict.get (entries [] l) k) as [v|] eqn:Eg.
    2:{ apply get_None_keys in Eg. rewrite entries_keys in Eg. contradiction. }
    assert (Hs : shaped k) by (eapply allocate_shaped; eassumption).
    assert (Hr : Py.replace (render done t 0 [] l) k v =
                 render (fun p => done p || text_eqb p k) t 0 [] l).
    { destruct (shaped_head k Hs) as (k' & Ek).
      unfold Py.replace. rewrite Ek. rewrite <- Ek.
      apply (replace_render t k v Hs Hab l 0 [] done [] 0); auto; try lia.
      intros c Hc. eapply get_In; eauto.
      rewrite entries_keys. apply allocate_NoDup. }
    rewrite Hr, IH by assumption. f_equal. apply render_ext.
    intros p _. simpl. now rewrite orb_assoc.
Qed.

Lemma filter_overlaps_chain (t : text) (l : list span) :
  forall last cur,
    Forall (well_formed t) l ->
    0 <= cur <= Z.of_nat (length t) -> cur <= Z.max last 0 ->
    chain t cur (filter_overlaps last l).
Proof.
  induction l as [|m l IH]; intros last cur Hwf Hc Hl; cbn [filter_overlaps chain].
  - exact Hc.
  - inversion Hwf as [|? ? Hm Hwf']; subst.
    destruct (start m >=? last) eqn:E; [|auto].
    apply Z.geb_le in E. pose proof Hm as (Hse & Hlen & _).
    cbn [chain]. repeat split; try lia; try apply Hm.
    apply IH; [assumption|lia|lia].
Qed.

Lemma filtered_matches_chain (t : text) (matches : list span) :
  Forall (well_formed t) matches -> chain t 0 (filtered_matches matches).
Proof.
  intros H. apply filter_overlaps_chain; [|lia|lia].
  eapply Permutation_Forall; [symmetry; apply sorted_perm|exact H].
Qed.

Lemma anonymize_matches_spec (t : text) (regex_matches ner_matches : list span) :
  let filtered := filtered_matches (regex_matches ++ ner_matches) in
  anonymize_matches t regex_matches ner_matches =
  (render (fun _ => false) t 0 [] filtered, entries [] filtered).
Proof.
  cbv zeta. unfold anonymize_matches.
  rewrite subst_loop_table, subst_loop_parts. f_equal.
  unfold subst_loop.
  destruct (subst_fold_spec t (filtered_matches (regex_matches ++ ner_matches))
              [] subst_init counts_ok_init) as (_ & _ & Hi).
  rewrite Hi. apply join_parts.
Qed.

Lemma existsb_text_In (p : text) (keys : list text) :
  In p keys -> existsb (text_eqb p) keys = true.
Proof.
  intros H. apply existsb_exists. exists p. split; [assumption|apply text_eqb_refl].
Qed.

(** Restoration undoes the substitution of a well-formed, left-to-right
    sequence of matches with plain labels, when no placeholder occurs in the
    original text. *)
Lemma restore_entries (t : text) (l : list span) :
  chain t 0 l ->
  Forall (fun m => plain (label m)) l ->
  (forall k, In k (allocate [] l) -> ~ occurs k t) ->
  restore (render (fun _ => false) t 0 [] l) (entries [] l) = Some t.
Proof.
  intros Hch Hpl Hab. unfold restore.
  assert (Hperm : Permutation
            (Py.sorted_reverse key_len (Dict.keys (entries [] l))) (allocate [] l))
    by (rewrite <- entries_keys; apply sorted_reverse_perm).
  rewrite restore_loop_render; try assumption.
  - f_equal. rewrite render_all; [reflexivity|assumption|].
    intros p Hp. apply existsb_text_In.
    eapply Permutation_in; [symmetry; exact Hperm|exact Hp].
  - apply Forall_forall. intros k Hk.
    assert (In k (allocate [] l)) by (eapply Permutation_in; eassumption).
    auto.
Qed.

Lemma occursb_false (k s : text) : occursb k s = false -> ~ occurs k s.
Proof.
  induction s as [|c s IH]; simpl; intros H (a & b & E).
  - apply orb_false_elim in H. destruct H as [H _].
    destruct a; [|discriminate]. destruct k; [discriminate|discriminate].
  - apply orb_false_elim in H. destruct H as [H1 H2].
    destruct a as [|d a].
    + simpl in E. rewrite E, startswith_app in H1. discriminate.
    + injection E as _ E. apply (IH H2). now exists a, b.
Qed.

(** * The accepted span set *)

(** C2 (as amended).  When every detector span is non-empty
    ([start < end]), the accepted spans are pairwise non-overlapping, have
    strictly increasing starts, and are drawn unchanged from the detector
    spans: together with the rejected ones they are a permutation of the
    input. *)
Theorem accepted_spans_ordered (matches : list span) :
  Forall nonempty matches -> accepted_set matches.
Proof.
  intros Hne. repeat split.
  - apply filtered_matches_pairwise.
  - apply adjacent_strict; [|apply filter_overlaps_adjacent].
    apply filter_overlaps_Forall.
    eapply Permutation_Forall; [symmetry; apply sorted_perm|exact Hne].
  - apply filtered_matches_drawn.
Qed.

Lemma accepted_spans_ordered_witness :
  Forall nonempty [span_B; span_A; mk_span 5 9 (str "C") (str " wor")] /\
  accepted_set [span_B; span_A; mk_span 5 9 (str "C") (str " wor")].
Proof.
  assert (H : Forall nonempty [span_B; span_A; mk_span 5 9 (str "C") (str " wor")])
    by (repeat constructor; unfold nonempty; simpl; lia).
  split; [exact H|exact (accepted_spans_ordered _ H)].
Defined.

(** C2, as stated, fails: an empty span and a span that begins at the same
    offset are both accepted, so the starts do not strictly increase. *)
Lemma accepted_starts_not_strict :
  ~ accepted_set [mk_span 3 3 (str "A") []; mk_span 3 5 (str "B") (str "lo")].
Proof.
  intros (_ & H & _).
  change (filtered_matches
            [mk_span 3 3 (str "A") []; mk_span 3 5 (str "B") (str "lo")])
    with [mk_span 3 3 (str "A") []; mk_span 3 5 (str "B") (str "lo")] in H.
  inversion H as [|? ? _ Hf]; subst. inversion Hf as [|? ? Hlt _]; subst.
  unfold lt_start in Hlt. simpl in Hlt. lia.
Qed.

(** * Malformed spans *)

(** C3 (as amended).  The overlap filter looks at nothing but the start of
    a span: every accepted span starts at [-1] or later, and a span that is
    the only detection is accepted as soon as its start is at least [-1],
    wherever its end lies; it is then replaced by [<label_1>], between the
    clamped slices of the text around it, and entered in the table. *)
Theorem malformed_span_handling :
  (forall matches m, In m (filtered_matches matches) -> -1 <= start m) /\
  (forall t m, -1 <= start m ->
     filtered_matches [m] = [m] /\
     anonymize_matches t [m] [] =
       (Py.slice t 0 (start m) ++ placeholder (label m) 1
          ++ Py.slice_from t (end_ m),
        [(placeholder (label m) 1, content m)])).
Proof.
  split.
  - intros matches m H. eapply filter_overlaps_after; [|exact H].
    apply (sorted_ascending start).
  - intros t m H.
    assert (E : filtered_matches [m] = [m]).
    { unfold filtered_matches. simpl.
      destruct (start m >=? -1) eqn:G; [reflexivity|].
      rewrite Z.geb_leb in G. apply Z.leb_gt in G. lia. }
    split; [exact E|].
    rewrite anonymize_matches_spec. cbv zeta.
    change ([m] ++ []) with [m]. rewrite E.
    cbn [render entries allocate map combine occurrences filter length app].
    reflexivity.
Qed.

Lemma malformed_span_handling_witness :
  -1 <= start (mk_span 3 99 (str "PER") (str "Bob")) /\
  malformed (str "hi Bob") (mk_span 3 99 (str "PER") (str "Bob")) /\
  anonymize_matches (str "hi Bob") [mk_span 3 99 (str "PER") (str "Bob")] [] =
    (str "hi <PER_1>", [(str "<PER_1>", str "Bob")]).
Proof.
  split; [simpl; lia|]. split; [right; left; simpl; lia|].
  exact (proj2 (proj2 malformed_span_handling (str "hi Bob")
                  (mk_span 3 99 (str "PER") (str "Bob")) ltac:(simpl; lia))).
Defined.

(** C3, as stated, fails: an entity reported beyond the end of the text is
    accepted by the filter. *)
Lemma malformed_span_accepted :
  ~ rejects_malformed (str "hi Bob")
      (detect_pii_regex (ner_only [mk_entity 3 99 (str "PER")]) (str "hi Bob")
       ++ detect_pii_ner (ner_only [mk_entity 3 99 (str "PER")]) (str "hi Bob")
            (str "en")).
Proof.
  intros H.
  apply (H (mk_span 3 99 (str "PER") (str "Bob"))).
  - vm_compute. now left.
  - right. left. simpl. lia.
  - vm_compute. now left.
Qed.

(** * Nested spans *)

(** C4 (as amended).  For a non-empty span nested in an outer span that
    starts at offset 0 or later: if the outer span starts strictly first, it
    is accepted and the inner one rejected in either enumeration order; if
    both start at the same offset, the one enumerated first is accepted and
    the other rejected. *)
Theorem nested_span_resolution (inner outer : span) :
  0 <= start outer -> nonempty inner -> nested inner outer ->
  filtered_matches [outer; inner] = [outer] /\
  (start outer < start inner -> filtered_matches [inner; outer] = [outer]) /\
  (start outer = start inner -> filtered_matches [inner; outer] = [inner]).
Proof.
  unfold nonempty, nested, filtered_matches. intros Ho Hi (H1 & H2 & H3).
  assert (G1 : (start outer >=? -1) = true) by (apply Z.geb_le; lia).
  assert (G2 : (start inner >=? -1) = true) by (apply Z.geb_le; lia).
  assert (G3 : (start inner >=? end_ outer) = false)
    by (rewrite Z.geb_leb; apply Z.leb_gt; lia).
  repeat split.
  - simpl. destruct (start outer <=? start inner) eqn:E.
    + simpl. now rewrite G1, G3.
    + apply Z.leb_gt in E. lia.
  - intros Hlt. simpl. destruct (start inner <=? start outer) eqn:E.
    + apply Z.leb_le in E. lia.
    + simpl. now rewrite G1, G3.
  - intros Heq. simpl. destruct (start inner <=? start outer) eqn:E.
    + simpl. rewrite G2.
      assert (G4 : (start outer >=? end_ inner) = false)
        by (rewrite Z.geb_leb; apply Z.leb_gt; lia).
      now rewrite G4.
    + apply Z.leb_gt in E. lia.
Qed.

Lemma nested_span_resolution_witness :
  (0 <= start span_A /\
   nonempty (mk_span 2 4 (str "PHONE") (str "ll")) /\
   nested (mk_span 2 4 (str "PHONE") (str "ll")) span_A) /\
  filtered_matches [span_A; mk_span 2 4 (str "PHONE") (str "ll")] = [span_A] /\
  filtered_matches [mk_span 2 4 (str "PHONE") (str "ll"); span_A] = [span_A].
Proof.
  assert (H1 : 0 <= start span_A) by (simpl; lia).
  assert (H2 : nonempty (mk_span 2 4 (str "PHONE") (str "ll")))
    by (unfold nonempty; simpl; lia).
  assert (H3 : nested (mk_span 2 4 (str "PHONE") (str "ll")) span_A)
    by (unfold nested; simpl; lia).
  split; [auto|].
  destruct (nested_span_resolution _ _ H1 H2 H3) as (E1 & E2 & _).
  split; [exact E1|]. apply E2. simpl. lia.
Defined.

(** C4, as stated, fails: when the two spans begin at the same offset and
    the inner one is enumerated first, the inner one is accepted. *)
Lemma nested_inner_wins_on_tie :
  ~ outer_always_wins (mk_span 0 3 (str "PHONE") (str "hel")) span_A.
Proof.
  intros H.
  assert (N : nested (mk_span 0 3 (str "PHONE") (str "hel")) span_A)
    by (unfold nested; simpl; lia).
  destruct (H N) as [_ E]. vm_compute in E. discriminate.
Qed.

(** * Stable sort and tie-break *)

(** C5.  The matches are sorted ascending by start by a stable sort: the
    sorted list is a permutation of the enumeration, ascending in [start],
    and the matches of any one start offset keep their enumeration order.
    Hence, whenever a match of some start offset is accepted, the first
    enumerated match of that offset is accepted, and no other one of that
    offset is unless that first one is empty.  On [("A",[0,5))] and
    [("B",[3,8))], in that order, exactly the "A" span is accepted. *)
Theorem stable_sort_tie_break :
  (forall matches : list span,
      Permutation (Py.sorted start matches) matches /\
      StronglySorted le_start (Py.sorted start matches) /\
      forall k, filter (fun m => start m =? k) (Py.sorted start matches) =
                filter (fun m => start m =? k) matches) /\
  (forall (matches : list span) (y f : span),
      In y (filtered_matches matches) ->
      find (fun m => start m =? start y) matches = Some f ->
      In f (filtered_matches matches) /\ (nonempty f -> y = f)) /\
  filtered_matches [span_A; span_B] = [span_A].
Proof.
  split; [|split].
  - intros matches. split; [apply sorted_perm|]. split.
    + apply (sorted_ascending start).
    + intros k. apply (sorted_stable start).
  - intros matches y f Hy Hf. split.
    + eapply filtered_matches_first_accepted; eassumption.
    + intros Hne. eapply filtered_matches_first; eassumption.
  - reflexivity.
Qed.

Lemma stable_sort_tie_break_witness :
  In span_A (filtered_matches [span_B; span_A; mk_span 0 2 (str "C") (str "he")]) /\
  find (fun m => start m =? start span_A)
       [span_B; span_A; mk_span 0 2 (str "C") (str "he")] = Some span_A /\
  nonempty span_A /\ span_A = span_A.
Proof.
  assert (H1 : In span_A
             (filtered_matches [span_B; span_A; mk_span 0 2 (str "C") (str "he")]))
    by (vm_compute; now left).
  assert (H2 : find (fun m => start m =? start span_A)
                 [span_B; span_A; mk_span 0 2 (str "C") (str "he")] = Some span_A)
    by reflexivity.
  assert (H3 : nonempty span_A) by (unfold nonempty; simpl; lia).
  split; [exact H1|]. split; [exact H2|]. split; [exact H3|].
  exact (proj2 (proj1 (proj2 stable_sort_tie_break) _ _ _ H1 H2) H3).
Defined.

(** * Detector enumeration order *)

Lemma detect_pii_regex_order (self : PrivacyGuard) (t : text) :
  detect_pii_regex self t =
  map (match_tuple t (str "EMAIL")) (re_email self t)
    ++ map (match_tuple t (str "PHONE")) (re_phone self t)
    ++ map (match_tuple t (str "IBAN")) (re_iban self t).
Proof.
  unfold detect_pii_regex, regex_patterns, Dict.items. cbn [flat_map fst snd].
  now rewrite app_nil_r.
Qed.

(** * Placeholder allocation *)

(** C8.  Whatever the labels, the placeholders emitted in one call are
    pairwise distinct, and the keys of the restoration table are exactly
    those placeholders, in the order of their emission. *)
Theorem placeholders_unique_and_keyed (t : text) (regex_matches ner_matches : list span) :
  let st := subst_loop t (filtered_matches (regex_matches ++ ner_matches)) in
  NoDup (emitted (sanitized_parts st)) /\
  Dict.keys (mapping_table st) = emitted (sanitized_parts st) /\
  snd (anonymize_matches t regex_matches ner_matches) = mapping_table st /\
  fst (anonymize_matches t regex_matches ner_matches) =
    Py.join (sanitized_parts st ++ [Py.slice_from t (current_idx st)]).
Proof.
  cbv zeta. split; [|split; [|split]].
  - rewrite subst_loop_emitted. apply allocate_NoDup.
  - now rewrite subst_loop_emitted, subst_loop_table, entries_keys.
  - reflexivity.
  - reflexivity.
Qed.

(** * Restoration order *)

(** C6.  [restore] processes the keys longest first; so a key that is a
    proper prefix of another key is processed after it, and on a table of
    two such keys the longer one is replaced in the sanitized text before
    the shorter one, in whichever order the table lists them.  In
    particular ["<PER_1> met <PER_10>"] restores to ["Ann met Bob"]. *)
Theorem restore_longest_key_first :
  (forall table : Dict.t text,
      Permutation (Py.sorted_reverse key_len (Dict.keys table)) (Dict.keys table) /\
      StronglySorted longer_first (Py.sorted_reverse key_len (Dict.keys table))) /\
  (forall (table : Dict.t text) (k1 k2 : text),
      In k1 (Dict.keys table) -> In k2 (Dict.keys table) ->
      proper_prefix k1 k2 ->
      precedes k2 k1 (Py.sorted_reverse key_len (Dict.keys table))) /\
  (forall (s k1 k2 v1 v2 : text),
      proper_prefix k1 k2 ->
      restore s [(k1, v1); (k2, v2)] =
        Some (Py.replace (Py.replace s k2 v2) k1 v1) /\
      restore s [(k2, v2); (k1, v1)] =
        Some (Py.replace (Py.replace s k2 v2) k1 v1)) /\
  restore (str "<PER_1> met <PER_10>")
          [(str "<PER_1>", str "Ann"); (str "<PER_10>", str "Bob")]
    = Some (str "Ann met Bob").
Proof.
  assert (Hlen : forall k1 k2, proper_prefix k1 k2 ->
                               (length k1 < length k2)%nat /\ k1 <> k2).
  { intros k1 k2 (r & Hr & ->). rewrite length_app.
    destruct r as [|c r]; [congruence|]. simpl. split; [lia|].
    intros E. apply (f_equal (@length ascii)) in E.
    rewrite length_app in E. simpl in E. lia. }
  split; [|split; [|split]].
  - intros table. split; [apply sorted_reverse_perm|apply sorted_reverse_longer_first].
  - intros table k1 k2 H1 H2 Hp. destruct (Hlen _ _ Hp) as [Hl Hne].
    apply (strongly_sorted_precedes longer_first).
    + apply sorted_reverse_longer_first.
    + eapply Permutation_in; [symmetry; apply sorted_reverse_perm|exact H2].
    + eapply Permutation_in; [symmetry; apply sorted_reverse_perm|exact H1].
    + unfold longer_first. lia.
    + congruence.
  - intros s k1 k2 v1 v2 Hp. destruct (Hlen _ _ Hp) as [Hl Hne].
    assert (E12 : text_eqb k1 k2 = false) by now apply text_eqb_neq.
    assert (E21 : text_eqb k2 k1 = false) by (apply text_eqb_neq; congruence).
    unfold restore, Py.sorted_reverse, key_len. simpl.
    destruct (- Z.of_nat (length k1) <=? - Z.of_nat (length k2)) eqn:E1;
      [apply Z.leb_le in E1; lia|].
    destruct (- Z.of_nat (length k2) <=? - Z.of_nat (length k1)) eqn:E2;
      [|apply Z.leb_gt in E2; lia].
    simpl. now rewrite !text_eqb_refl, E12, E21.
  - reflexivity.
Qed.

Lemma restore_longest_key_first_witness :
  proper_prefix (str "<PER_1>") (str "<PER_1>0") /\
  precedes (str "<PER_1>0") (str "<PER_1>")
    (Py.sorted_reverse key_len
       (Dict.keys [(str "<PER_1>", str "Ann"); (str "<PER_1>0", str "Bob")])).
Proof.
  assert (H : proper_prefix (str "<PER_1>") (str "<PER_1>0"))
    by (exists (str "0"); split; [discriminate|reflexivity]).
  split; [exact H|].
  apply (proj1 (proj2 restore_longest_key_first)
           [(str "<PER_1>", str "Ann"); (str "<PER_1>0", str "Bob")]);
    [now left|right; now left|exact H].
Defined.

(** * Restoration with a table that does not match the text *)

(** C9, as stated, fails: a key absent from the sanitized text takes effect
    once the content restored for another key brings it in. *)
Lemma absent_key_takes_effect : ~ mismatch_harmless.
Proof.
  intros (_ & _ & H & _).
  specialize (H (str "<A_1>") [(str "<A_1>", str "<B_1>")] (str "<B_1>") (str "x")).
  assert (Ha : ~ occurs (str "<B_1>") (str "<A_1>"))
    by (apply occursb_false; reflexivity).
  specialize (H Ha eq_refl). vm_compute in H. discriminate.
Qed.

(** * Round trip *)

(** C1 (as amended).  For detector outputs whose spans lie within the text
    ([0 <= start <= end <= len(text)]) with content equal to the slice they
    delimit, whose labels contain neither ["<"] nor [">"], and such that no
    key of the restoration table occurs in the original text, restoring the
    sanitized text with its own table gives back the original text. *)
Theorem restore_anonymize_round_trip (t : text) (regex_matches ner_matches : list span) :
  Forall (well_formed t) (regex_matches ++ ner_matches) ->
  Forall (fun m => plain (label m)) (regex_matches ++ ner_matches) ->
  Forall (fun k => ~ occurs k t)
         (Dict.keys (snd (anonymize_matches t regex_matches ner_matches))) ->
  restore (fst (anonymize_matches t regex_matches ner_matches))
          (snd (anonymize_matches t regex_matches ner_matches)) = Some t.
Proof.
  rewrite anonymize_matches_spec. cbv zeta. cbn [fst snd].
  rewrite entries_keys. intros Hwf Hpl Hab.
  apply restore_entries.
  - now apply filtered_matches_chain.
  - apply Forall_forall. intros m Hm. apply filtered_matches_In in Hm.
    rewrite Forall_forall in Hpl. auto.
  - rewrite Forall_forall in Hab. exact Hab.
Qed.

Lemma restore_anonymize_round_trip_witness :
  Forall (well_formed (str "Hi Bob, mail bob@x.io or Bob"))
    ([mk_span 13 21 (str "EMAIL") (str "bob@x.io")]
       ++ [mk_span 3 6 (str "PER") (str "Bob");
           mk_span 25 28 (str "PER") (str "Bob")]) /\
  restore
    (fst (anonymize_matches (str "Hi Bob, mail bob@x.io or Bob")
            [mk_span 13 21 (str "EMAIL") (str "bob@x.io")]
            [mk_span 3 6 (str "PER") (str "Bob");
             mk_span 25 28 (str "PER") (str "Bob")]))
    (snd (anonymize_matches (str "Hi Bob, mail bob@x.io or Bob")
            [mk_span 13 21 (str "EMAIL") (str "bob@x.io")]
            [mk_span 3 6 (str "PER") (str "Bob");
             mk_span 25 28 (str "PER") (str "Bob")]))
  = Some (str "Hi Bob, mail bob@x.io or Bob").
Proof.
  assert (Hwf : Forall (well_formed (str "Hi Bob, mail bob@x.io or Bob"))
    ([mk_span 13 21 (str "EMAIL") (str "bob@x.io")]
       ++ [mk_span 3 6 (str "PER") (str "Bob");
           mk_span 25 28 (str "PER") (str "Bob")]))
    by (repeat constructor; simpl; lia).
  split; [exact Hwf|].
  apply (restore_anonymize_round_trip _ _ _ Hwf).
  - repeat constructor; simpl; intuition discriminate.
  - repeat constructor; apply occursb_false; reflexivity.
Defined.

(** C1, as stated, fails: when the text already holds a token equal to a
    placeholder that the call allocates, restoration rewrites that token
    too. *)
Lemma round_trip_counterexample :
  ~ round_trip (ner_only [mk_entity 8 11 (str "PER")]) (str "<PER_1> Bob") (str "en").
Proof. unfold round_trip. vm_compute. discriminate. Qed.

(** Each hypothesis of the round trip is needed.  A span whose end precedes
    its start duplicates a stretch of the text. *)
Example round_trip_needs_well_formed :
  restore (fst (anonymize_matches (str "abcdef") [mk_span 4 2 (str "X") []] []))
          (snd (anonymize_matches (str "abcdef") [mk_span 4 2 (str "X") []] []))
  = Some (str "abcdcdef").
Proof. reflexivity. Qed.

(** A label that holds ["<"] lets a longer placeholder straddle a stretch
    of text and a shorter placeholder. *)
Example round_trip_needs_plain_labels :
  anonymize (ner_only [mk_entity 3 6 (str "B"); mk_entity 11 14 (str "A_<B")])
            (str "<A_Bob and Eve") (str "en")
  = (str "<A_<B_1> and <A_<B_1>",
     [(str "<B_1>", str "Bob"); (str "<A_<B_1>", str "Eve")]) /\
  restore (str "<A_<B_1> and <A_<B_1>")
          [(str "<B_1>", str "Bob"); (str "<A_<B_1>", str "Eve")]
  = Some (str "Eve and Eve").
Proof. split; reflexivity. Qed.

(** The stress scenario of the script: twelve entities of one label are
    numbered 1 to 12 and the text is restored exactly. *)
Example stress_round_trip :
  fst (anonymize stress_guard text_stress (str "en")) =
    str "<PER_1>, <PER_2>, <PER_3>, <PER_4>, <PER_5>, <PER_6>, <PER_7>, <PER_8>, <PER_9>, <PER_10>, <PER_11>, <PER_12> live in <LOC_1>." /\
  round_trip stress_guard text_stress (str "en").
Proof. split; vm_compute; reflexivity. Qed.

(** * Further properties of the detectors *)

Lemma detect_pii_ner_selected (self : PrivacyGuard) (t language : text) :
  detect_pii_ner self t language =
  map (entity_tuple t) (selected_pipeline self language t).
Proof.
  unfold detect_pii_ner, selected_pipeline, Dict.mem, models.
  cbn [Dict.get].
  destruct (text_eqb language (str "en")) eqn:Een.
  - rewrite Een. apply text_eqb_eq in Een. subst language. reflexivity.
  - destruct (text_eqb language (str "fr")) eqn:Efr.
    + now rewrite Een, Efr.
    + reflexivity.
Qed.

(** X1.  A language selector other than ["en"] and ["fr"] is served by the
    English pipeline: the NER matches, and with them the whole result of
    [anonymize], are those of the selector ["en"]. *)
Theorem unsupported_language_defaults_to_english
        (self : PrivacyGuard) (t language : text) :
  language <> str "en" -> language <> str "fr" ->
  detect_pii_ner self t language = map (entity_tuple t) (ner_en self t) /\
  detect_pii_ner self t language = detect_pii_ner self t (str "en") /\
  anonymize self t language = anonymize self t (str "en").
Proof.
  intros Hen Hfr.
  assert (E : detect_pii_ner self t language = map (entity_tuple t) (ner_en self t)).
  { rewrite detect_pii_ner_selected. unfold selected_pipeline.
    apply text_eqb_neq in Hfr. now rewrite Hfr. }
  assert (E' : detect_pii_ner self t language = detect_pii_ner self t (str "en"))
    by (rewrite E; reflexivity).
  split; [exact E|]. split; [exact E'|].
  unfold anonymize. now rewrite E'.
Qed.

Lemma unsupported_language_defaults_to_english_witness :
  str "de" <> str "en" /\ str "de" <> str "fr" /\
  anonymize (mk_guard (fun _ => []) (fun _ => []) (fun _ => [])
               (fun _ => [mk_entity 0 3 (str "PER")])
               (fun _ => [mk_entity 4 8 (str "LOC")]))
            (str "Ann Rome") (str "de")
  = anonymize (mk_guard (fun _ => []) (fun _ => []) (fun _ => [])
                 (fun _ => [mk_entity 0 3 (str "PER")])
                 (fun _ => [mk_entity 4 8 (str "LOC")]))
              (str "Ann Rome") (str "en").
Proof.
  assert (H1 : str "de" <> str "en") by discriminate.
  assert (H2 : str "de" <> str "fr") by discriminate.
  split; [exact H1|]. split; [exact H2|].
  exact (proj2 (proj2 (unsupported_language_defaults_to_english _ _ _ H1 H2))).
Defined.

(** * Further properties of the reconciliation *)

Lemma filter_overlaps_nil (l : list span) :
  forall last, filter_overlaps last l = [] <-> Forall (fun m => start m < last) l.
Proof.
  induction l as [|x l IH]; intros last; simpl.
  - split; [constructor|reflexivity].
  - destruct (start x >=? last) eqn:E.
    + apply Z.geb_le in E. split; [discriminate|].
      intros H. inversion H; subst. lia.
    + rewrite Z.geb_leb in E. apply Z.leb_gt in E. rewrite IH.
      split; intros H; [now constructor|now inversion H].
Qed.

(** X2.  No span is accepted exactly when every detected span starts
    below [-1] (in particular when nothing is detected); [anonymize] then
    returns the text as it is with an empty table, and an empty table is
    returned in that case only. *)
Theorem nothing_accepted_text_unchanged (t : text) (regex_matches ner_matches : list span) :
  (filtered_matches (regex_matches ++ ner_matches) = [] <->
   Forall (fun m => start m < -1) (regex_matches ++ ner_matches)) /\
  (filtered_matches (regex_matches ++ ner_matches) = [] ->
   anonymize_matches t regex_matches ner_matches = (t, Dict.empty)) /\
  (snd (anonymize_matches t regex_matches ner_matches) = Dict.empty ->
   filtered_matches (regex_matches ++ ner_matches) = []).
Proof.
  split; [|split].
  - unfold filtered_matches. rewrite filter_overlaps_nil.
    split; intros H; eapply Permutation_Forall; try exact H;
      [apply sorted_perm|symmetry; apply sorted_perm].
  - intros E. rewrite anonymize_matches_spec. cbv zeta. rewrite E.
    reflexivity.
  - rewrite anonymize_matches_spec. cbv zeta. cbn [snd].
    destruct (filtered_matches (regex_matches ++ ner_matches)); [reflexivity|].
    rewrite entries_cons. discriminate.
Qed.

Lemma nothing_accepted_text_unchanged_witness :
  Forall (fun m => start m < -1) ([] ++ [mk_span (-3) (-1) (str "PER") (str "Bo")]) /\
  anonymize_matches (str "Ann Bob") [] [mk_span (-3) (-1) (str "PER") (str "Bo")]
  = (str "Ann Bob", Dict.empty).
Proof.
  assert (H : Forall (fun m => start m < -1)
                ([] ++ [mk_span (-3) (-1) (str "PER") (str "Bo")]))
    by (repeat constructor; simpl; lia).
  split; [exact H|].
  destruct (nothing_accepted_text_unchanged (str "Ann Bob") []
              [mk_span (-3) (-1) (str "PER") (str "Bo")]) as (H1 & H2 & _).
  apply H2. apply H1. exact H.
Defined.

Lemma sorted_fixed {A : Type} (key : A -> Z) (l : list A) :
  StronglySorted (key_le key) l -> Py.sorted key l = l.
Proof.
  induction 1 as [|a l Hs IH Hf]; [reflexivity|].
  cbn [Py.sorted fold_right]. fold (Py.sorted key l). rewrite IH.
  destruct l as [|b l]; [reflexivity|]. cbn [Py.insert_by].
  inversion Hf as [|? ? Hab _]; subst. unfold key_le in Hab.
  destruct (key a <=? key b) eqn:E; [reflexivity|].
  apply Z.leb_gt in E. lia.
Qed.

Lemma filter_overlaps_fixed (l : list span) :
  forall last, Sorted before l -> Forall (fun m => last <= start m) (firstn 1 l) ->
    filter_overlaps last l = l.
Proof.
  induction l as [|x l IH]; intros last Hs Hh; [reflexivity|].
  cbn [filter_overlaps]. cbn [firstn] in Hh. inversion Hh as [|? ? Hx _]; subst.
  destruct (start x >=? last) eqn:E.
  - f_equal. inversion Hs as [|? ? Hs' Hd]; subst. apply IH; [assumption|].
    destruct l as [|y l]; [constructor|]. cbn [firstn].
    inversion Hd; subst. constructor; [assumption|constructor].
  - rewrite Z.geb_leb in E. apply Z.leb_gt in E. lia.
Qed.

(** X3.  Reconciliation is idempotent: the accepted spans, reconciled
    again, are all accepted, in the same order; so the accepted spans alone
    give the same sanitized text and table as the full detector output. *)
Theorem reconciliation_idempotent (t : text) (regex_matches ner_matches : list span) :
  filtered_matches (filtered_matches (regex_matches ++ ner_matches)) =
    filtered_matches (regex_matches ++ ner_matches) /\
  anonymize_matches t (filtered_matches (regex_matches ++ ner_matches)) [] =
    anonymize_matches t regex_matches ner_matches.
Proof.
  assert (E : filtered_matches (filtered_matches (regex_matches ++ ner_matches)) =
              filtered_matches (regex_matches ++ ner_matches)).
  { unfold filtered_matches at 1. rewrite sorted_fixed.
    - apply filter_overlaps_fixed; [apply filter_overlaps_adjacent|].
      unfold filtered_matches.
      destruct (filter_overlaps (-1) (Py.sorted start (regex_matches ++ ner_matches)))
        as [|x r] eqn:Ef; [constructor|].
      cbn [firstn]. constructor; [|constructor].
      eapply filter_overlaps_head. exact Ef.
    - apply filter_overlaps_strong. apply (sorted_ascending start). }
  split; [exact E|].
  rewrite !anonymize_matches_spec. cbv zeta. rewrite app_nil_r, E. reflexivity.
Qed.

Lemma filter_overlaps_rejected (l : list span) :
  forall last m, StronglySorted le_start l ->
    In m l -> ~ In m (filter_overlaps last l) ->
    start m < last \/
    exists a, In a (filter_overlaps last l) /\ conflicts a m.
Proof.
  induction l as [|x l IH]; intros last m Hs Hm Hn; [contradiction|].
  inversion Hs as [|? ? Hs' Hall]; subst. cbn [filter_overlaps] in *.
  destruct (start x >=? last) eqn:E.
  - destruct Hm as [->|Hm]; [exfalso; apply Hn; now left|].
    destruct (IH (end_ x) m Hs' Hm) as [Hlt|(a & Ha & Hc)].
    + intros H. apply Hn. now right.
    + right. exists x. split; [now left|].
      rewrite Forall_forall in Hall. specialize (Hall _ Hm).
      unfold conflicts, le_start in *. lia.
    + right. exists a. split; [now right|assumption].
  - rewrite Z.geb_leb in E. apply Z.leb_gt in E.
    destruct Hm as [->|Hm]; [now left|]. now apply IH.
Qed.

(** X4.  A detected span is dropped only on a conflict: a span that is not
    among the accepted ones either starts below [-1] or starts inside an
    accepted span that starts no later than itself. *)
Theorem rejected_only_on_conflict (matches : list span) (m : span) :
  In m matches -> ~ In m (filtered_matches matches) ->
  start m < -1 \/
  exists a, In a (filtered_matches matches) /\ conflicts a m.
Proof.
  intros Hm Hn. apply filter_overlaps_rejected.
  - apply (sorted_ascending start).
  - eapply Permutation_in; [symmetry; apply sorted_perm|exact Hm].
  - exact Hn.
Qed.

Lemma rejected_only_on_conflict_witness :
  In span_B [span_A; span_B] /\ ~ In span_B (filtered_matches [span_A; span_B]) /\
  (start span_B < -1 \/
   exists a, In a (filtered_matches [span_A; span_B]) /\ conflicts a span_B).
Proof.
  assert (H1 : In span_B [span_A; span_B]) by (right; now left).
  assert (H2 : ~ In span_B (filtered_matches [span_A; span_B])).
  { change (filtered_matches [span_A; span_B]) with [span_A].
    intros [H|[]]. discriminate. }
  split; [exact H1|]. split; [exact H2|].
  exact (rejected_only_on_conflict _ _ H1 H2).
Defined.

Lemma sorted_unique {A : Type} (key : A -> Z) (l1 : list A) :
  forall l2,
    StronglySorted (key_le key) l1 -> StronglySorted (key_le key) l2 ->
    Permutation l1 l2 -> NoDup (map key l1) -> l1 = l2.
Proof.
  induction l1 as [|a l1 IH]; intros l2 H1 H2 Hp Hn.
  - apply Permutation_nil in Hp. now subst.
  - destruct l2 as [|b l2];
      [apply Permutation_sym, Permutation_nil in Hp; discriminate|].
    inversion H1 as [|? ? H1' Hf1]; subst. inversion H2 as [|? ? H2' Hf2]; subst.
    inversion Hn as [|? ? Hk Hn']; subst.
    assert (Ha : In a (b :: l2))
      by (eapply Permutation_in; [exact Hp|now left]).
    assert (Hb : In b (a :: l1))
      by (eapply Permutation_in; [symmetry; exact Hp|now left]).
    assert (E : a = b).
    { destruct Hb as [Hb|Hb]; [assumption|].
      destruct Ha as [Ha|Ha]; [now symmetry|].
      rewrite Forall_forall in Hf1, Hf2.
      pose proof (Hf1 _ Hb) as L1. pose proof (Hf2 _ Ha) as L2.
      unfold key_le in L1, L2. exfalso. apply Hk.
      replace (key a) with (key b) by lia. now apply in_map. }
    subst b. f_equal. apply IH; try assumption.
    eapply Permutation_cons_inv. exact Hp.
Qed.

Lemma sorted_perm_invariant {A : Type} (key : A -> Z) (l l' : list A) :
  Permutation l l' -> NoDup (map key l) -> Py.sorted key l = Py.sorted key l'.
Proof.
  intros Hp Hn. apply (sorted_unique key).
  - apply sorted_ascending.
  - apply sorted_ascending.
  - rewrite !sorted_perm. exact Hp.
  - eapply Permutation_NoDup; [|exact Hn].
    apply Permutation_map. symmetry. apply sorted_perm.
Qed.

(** X5.  When the detected spans start at pairwise distinct offsets, the
    order in which the detectors enumerate them is irrelevant: any other
    enumeration of the same spans, split between the regex and the NER
    lists in any way, gives the same accepted spans, sanitized text and
    table. *)
Theorem enumeration_order_irrelevant (t : text)
        (regex_matches ner_matches regex_matches' ner_matches' : list span) :
  Permutation (regex_matches ++ ner_matches) (regex_matches' ++ ner_matches') ->
  NoDup (map start (regex_matches ++ ner_matches)) ->
  filtered_matches (regex_matches ++ ner_matches) =
    filtered_matches (regex_matches' ++ ner_matches') /\
  anonymize_matches t regex_matches ner_matches =
    anonymize_matches t regex_matches' ner_matches'.
Proof.
  intros Hp Hn.
  assert (E : filtered_matches (regex_matches ++ ner_matches) =
              filtered_matches (regex_matches' ++ ner_matches'))
    by (unfold filtered_matches; now rewrite (sorted_perm_invariant start _ _ Hp Hn)).
  split; [exact E|].
  rewrite !anonymize_matches_spec. cbv zeta. now rewrite E.
Qed.

Lemma enumeration_order_irrelevant_witness :
  Permutation ([mk_span 4 8 (str "EMAIL") (str "a@bc")] ++ [mk_span 0 3 (str "PER") (str "Ann")])
              ([] ++ [mk_span 0 3 (str "PER") (str "Ann"); mk_span 4 8 (str "EMAIL") (str "a@bc")]) /\
  NoDup (map start ([mk_span 4 8 (str "EMAIL") (str "a@bc")]
                      ++ [mk_span 0 3 (str "PER") (str "Ann")])) /\
  anonymize_matches (str "Ann a@bc") [mk_span 4 8 (str "EMAIL") (str "a@bc")]
                    [mk_span 0 3 (str "PER") (str "Ann")] =
  anonymize_matches (str "Ann a@bc") []
                    [mk_span 0 3 (str "PER") (str "Ann");
                     mk_span 4 8 (str "EMAIL") (str "a@bc")].
Proof.
  assert (H1 : Permutation
            ([mk_span 4 8 (str "EMAIL") (str "a@bc")] ++ [mk_span 0 3 (str "PER") (str "Ann")])
            ([] ++ [mk_span 0 3 (str "PER") (str "Ann"); mk_span 4 8 (str "EMAIL") (str "a@bc")]))
    by apply perm_swap.
  assert (H2 : NoDup (map start ([mk_span 4 8 (str "EMAIL") (str "a@bc")]
                                   ++ [mk_span 0 3 (str "PER") (str "Ann")]))).
  { simpl. constructor; [intros [H|[]]; discriminate|].
    constructor; [intros []|constructor]. }
  split; [exact H1|]. split; [exact H2|].
  exact (proj2 (enumeration_order_irrelevant (str "Ann a@bc") _ _ _ _ H1 H2)).
Defined.

(** * Further properties of the restoration *)

Lemma get_Some_In {V : Type} (d : Dict.t V) (k : text) (v : V) :
  Dict.get d k = Some v -> In (k, v) d.
Proof.
  induction d as [|[k' v'] d IH]; simpl; [discriminate|].
  destruct (text_eqb k k') eqn:E.
  - apply text_eqb_eq in E. subst. intros H. injection H as <-. now left.
  - intros H. right. auto.
Qed.

Lemma In_get {V : Type} (d : Dict.t V) (k : text) (v : V) :
  NoDup (Dict.keys d) -> In (k, v) d -> Dict.get d k = Some v.
Proof.
  intros Hn Hi. destruct (Dict.get d k) as [v'|] eqn:E.
  - f_equal. symmetry. eapply get_In; eauto.
  - apply get_None_keys in E. exfalso. apply E.
    unfold Dict.keys. apply (in_map fst) in Hi. exact Hi.
Qed.

Lemma get_perm {V : Type} (d d' : Dict.t V) (k : text) :
  Permutation d d' -> NoDup (Dict.keys d) -> Dict.get d k = Dict.get d' k.
Proof.
  intros Hp Hn.
  assert (Hk : Permutation (Dict.keys d) (Dict.keys d'))
    by (unfold Dict.keys; now apply Permutation_map).
  assert (Hn' : NoDup (Dict.keys d')) by (eapply Permutation_NoDup; eassumption).
  destruct (Dict.get d k) as [v|] eqn:E.
  - symmetry. apply In_get; [assumption|].
    eapply Permutation_in; [exact Hp|]. now apply get_Some_In.
  - symmetry. apply get_None_keys. apply get_None_keys in E.
    intros H. apply E. eapply Permutation_in; [symmetry; exact Hk|exact H].
Qed.

Lemma restore_loop_ext (d d' : Dict.t text) (keys : list text) :
  (forall k, Dict.get d k = Dict.get d' k) ->
  forall s, restore_loop d keys s = restore_loop d' keys s.
Proof.
  intros H. induction keys as [|k keys IH]; intros s; simpl; [reflexivity|].
  rewrite <- H. destruct (Dict.get d k); [apply IH|reflexivity].
Qed.

Lemma NoDup_map_opp {A : Type} (key : A -> Z) (l : list A) :
  NoDup (map key l) -> NoDup (map (fun x => - key x) l).
Proof.
  induction l as [|a l IH]; simpl; intros H; [constructor|].
  inversion H as [|? ? Hk Hn]; subst. constructor; [|auto].
  intros Hin. apply Hk. apply in_map_iff in Hin. destruct Hin as (x & Hx & Hin).
  apply in_map_iff. exists x. split; [lia|assumption].
Qed.

(** X6.  When the keys of a table have pairwise distinct lengths, the
    result of [restore] does not depend on the order of the table's
    entries. *)
Theorem restore_order_irrelevant (s : text) (table table' : Dict.t text) :
  Permutation table table' ->
  NoDup (map key_len (Dict.keys table)) ->
  restore s table = restore s table'.
Proof.
  intros Hp Hn. unfold restore.
  assert (Hk : Permutation (Dict.keys table) (Dict.keys table'))
    by (unfold Dict.keys; now apply Permutation_map).
  assert (Hs : Py.sorted_reverse key_len (Dict.keys table) =
               Py.sorted_reverse key_len (Dict.keys table')).
  { unfold Py.sorted_reverse. apply sorted_perm_invariant; [exact Hk|].
    now apply NoDup_map_opp. }
  rewrite Hs. apply restore_loop_ext. intros k. apply get_perm; [exact Hp|].
  eapply NoDup_map_inv. exact Hn.
Qed.

Lemma restore_order_irrelevant_witness :
  Permutation [(str "<PER_1>", str "Ann"); (str "<PER_10>", str "Bob")]
              [(str "<PER_10>", str "Bob"); (str "<PER_1>", str "Ann")] /\
  NoDup (map key_len (Dict.keys [(str "<PER_1>", str "Ann"); (str "<PER_10>", str "Bob")])) /\
  restore (str "<PER_1> met <PER_10>")
          [(str "<PER_1>", str "Ann"); (str "<PER_10>", str "Bob")] =
  restore (str "<PER_1> met <PER_10>")
          [(str "<PER_10>", str "Bob"); (str "<PER_1>", str "Ann")].
Proof.
  assert (H1 : Permutation [(str "<PER_1>", str "Ann"); (str "<PER_10>", str "Bob")]
                           [(str "<PER_10>", str "Bob"); (str "<PER_1>", str "Ann")])
    by apply perm_swap.
  assert (H2 : NoDup (map key_len
             (Dict.keys [(str "<PER_1>", str "Ann"); (str "<PER_10>", str "Bob")]))).
  { simpl. constructor; [intros [H|[]]; discriminate|].
    constructor; [intros []|constructor]. }
  split; [exact H1|]. split; [exact H2|].
  exact (restore_order_irrelevant _ _ _ H1 H2).
Defined.

(** * Further properties of the substitution *)

Lemma allocate_range (lbl : text) (n : nat) (l : list span) :
  forall seen,
    In (placeholder lbl n) (allocate seen l) <->
    (occurrences lbl seen < n <= occurrences lbl (seen ++ l))%nat.
Proof.
  induction l as [|m l IH]; intros seen.
  - rewrite app_nil_r. simpl. lia.
  - cbn [allocate In]. rewrite IH.
    replace (seen ++ m :: l) with ((seen ++ [m]) ++ l)
      by (now rewrite <- app_assoc).
    pose proof (occurrences_app lbl (seen ++ [m]) l) as Hl.
    destruct (list_eq_dec ascii_dec (label m) lbl) as [<-|Hne].
    + rewrite occurrences_snoc_same in *. split.
      * intros [E|H]; [apply placeholder_inj in E; lia|lia].
      * intros H.
        destruct (Nat.eq_dec n (S (occurrences (label m) seen))) as [->|Hn];
          [now left|right; lia].
    + rewrite occurrences_snoc_other in * by assumption. split.
      * intros [E|H]; [apply placeholder_inj in E; tauto|lia].
      * intros H. right. lia.
Qed.

(** X7.  The numbers given to one label have no gaps: [<lbl_n>] is a key
    of the table exactly when [n] lies between 1 and the number of accepted
    spans labelled [lbl]. *)
Theorem placeholder_numbers_contiguous (t : text)
        (regex_matches ner_matches : list span) (lbl : text) (n : nat) :
  In (placeholder lbl n)
     (Dict.keys (snd (anonymize_matches t regex_matches ner_matches))) <->
  (1 <= n <= occurrences lbl (filtered_matches (regex_matches ++ ner_matches)))%nat.
Proof.
  rewrite anonymize_matches_spec. cbv zeta. cbn [snd].
  rewrite entries_keys, allocate_range. cbn [app].
  unfold occurrences at 1. simpl. lia.
Qed.

Lemma placeholder_numbers_contiguous_witness :
  (1 <= 2 <= occurrences (str "PER")
     (filtered_matches ([] ++ [mk_span 0 3 (str "PER") (str "Ann");
                               mk_span 4 7 (str "PER") (str "Bob")])))%nat /\
  In (placeholder (str "PER") 2)
     (Dict.keys (snd (anonymize_matches (str "Ann Bob") []
                        [mk_span 0 3 (str "PER") (str "Ann");
                         mk_span 4 7 (str "PER") (str "Bob")]))).
Proof.
  assert (H : (1 <= 2 <= occurrences (str "PER")
     (filtered_matches ([] ++ [mk_span 0 3 (str "PER") (str "Ann");
                               mk_span 4 7 (str "PER") (str "Bob")])))%nat)
    by (vm_compute; split; repeat constructor).
  split; [exact H|].
  exact (proj2 (placeholder_numbers_contiguous (str "Ann Bob") []
                  [mk_span 0 3 (str "PER") (str "Ann");
                   mk_span 4 7 (str "PER") (str "Bob")] (str "PER") 2) H).
Defined.

Lemma entries_nth (l : list span) :
  forall seen i m, nth_error l i = Some m ->
    In (placeholder (label m) (occurrences (label m) (seen ++ firstn (S i) l)),
        content m)
       (entries seen l).
Proof.
  induction l as [|x l IH]; intros seen [|i] m H; simpl in H; try discriminate.
  - injection H as ->. rewrite entries_cons. left.
    cbn [firstn]. now rewrite occurrences_snoc_same.
  - rewrite entries_cons. right.
    rewrite firstn_cons.
    replace (seen ++ x :: firstn (S i) l) with ((seen ++ [x]) ++ firstn (S i) l)
      by (now rewrite <- app_assoc).
    now apply IH.
Qed.

(** X8.  Looking up in the table the placeholder of the accepted span at
    position [i] gives the content of that span. *)
Theorem table_lookup (t : text) (regex_matches ner_matches : list span)
        (i : nat) (m : span) :
  nth_error (filtered_matches (regex_matches ++ ner_matches)) i = Some m ->
  Dict.get (snd (anonymize_matches t regex_matches ner_matches))
           (placeholder (label m)
              (occurrences (label m)
                 (firstn (S i) (filtered_matches (regex_matches ++ ner_matches)))))
  = Some (content m).
Proof.
  intros H. rewrite anonymize_matches_spec. cbv zeta. cbn [snd].
  apply In_get.
  - rewrite entries_keys. apply allocate_NoDup.
  - apply (entries_nth _ [] i m H).
Qed.

Lemma table_lookup_witness :
  nth_error (filtered_matches ([] ++ [mk_span 4 7 (str "PER") (str "Bob");
                                      mk_span 0 3 (str "PER") (str "Ann")])) 1%nat
    = Some (mk_span 4 7 (str "PER") (str "Bob")) /\
  Dict.get (snd (anonymize_matches (str "Ann Bob") []
                   [mk_span 4 7 (str "PER") (str "Bob");
                    mk_span 0 3 (str "PER") (str "Ann")]))
           (str "<PER_2>")
  = Some (str "Bob").
Proof.
  split; [reflexivity|].
  exact (table_lookup (str "Ann Bob") []
           [mk_span 4 7 (str "PER") (str "Bob"); mk_span 0 3 (str "PER") (str "Ann")]
           1%nat (mk_span 4 7 (str "PER") (str "Bob")) eq_refl).
Defined.

Lemma allocate_in_parts (t : text) (k : text) (l : list span) :
  forall cur seen, In k (allocate seen l) -> In k (parts_of t cur seen l).
Proof.
  induction l as [|m l IH]; intros cur seen H; simpl in *; [assumption|].
  destruct H as [H|H]; [right; now left|right; right; eauto].
Qed.

Lemma occurs_concat (p : text) (parts : list text) :
  In p parts -> occurs p (concat parts).
Proof.
  intros H. apply in_split in H. destruct H as (l1 & l2 & ->).
  rewrite concat_app. simpl. now exists (concat l1), (concat l2).
Qed.

(** X9.  Every key of the table occurs in the sanitized text. *)
Theorem table_keys_in_sanitized_text (t : text)
        (regex_matches ner_matches : list span) (k : text) :
  In k (Dict.keys (snd (anonymize_matches t regex_matches ner_matches))) ->
  occurs k (fst (anonymize_matches t regex_matches ner_matches)).
Proof.
  unfold anonymize_matches. cbn [fst snd].
  rewrite subst_loop_table, subst_loop_parts, entries_keys. intros H.
  unfold Py.join. apply occurs_concat. apply in_or_app. left.
  now apply allocate_in_parts.
Qed.

Lemma table_keys_in_sanitized_text_witness :
  In (str "<PER_1>")
     (Dict.keys (snd (anonymize_matches (str "Ann Bob") []
                        [mk_span 4 7 (str "PER") (str "Bob")]))) /\
  occurs (str "<PER_1>")
         (fst (anonymize_matches (str "Ann Bob") []
                 [mk_span 4 7 (str "PER") (str "Bob")])).
Proof.
  assert (H : In (str "<PER_1>")
     (Dict.keys (snd (anonymize_matches (str "Ann Bob") []
                        [mk_span 4 7 (str "PER") (str "Bob")]))))
    by (vm_compute; now left).
  split; [exact H|].
  exact (table_keys_in_sanitized_text _ _ _ _ H).
Defined.

Lemma detected_content (self : PrivacyGuard) (t language : text) (m : span) :
  In m (detect_pii_regex self t ++ detect_pii_ner self t language) ->
  content m = Py.slice t (start m) (end_ m).
Proof.
  rewrite detect_pii_regex_order, detect_pii_ner_selected.
  rewrite !in_app_iff, !in_map_iff.
  intros H. repeat (destruct H as [H|H]);
    destruct H as (x & <- & _); reflexivity.
Qed.

Lemma occurs_slice_self (t : text) (a b : Z) : occurs (Py.slice t a b) t.
Proof.
  apply (occurs_slice _ t a b). exists [], []. now rewrite app_nil_r.
Qed.

(** X10.  Every value of the table returned by [anonymize] is a substring
    of the input text, whatever offsets the detectors report. *)
Theorem table_values_from_text (self : PrivacyGuard) (t language k v : text) :
  In (k, v) (snd (anonymize self t language)) -> occurs v t.
Proof.
  unfold anonymize. rewrite anonymize_matches_spec. cbv zeta. cbn [snd].
  unfold entries. intros H. apply in_combine_r in H.
  apply in_map_iff in H. destruct H as (m & <- & Hm).
  apply filtered_matches_In in Hm.
  rewrite (detected_content self t language m Hm). apply occurs_slice_self.
Qed.

Lemma table_values_from_text_witness :
  In (str "<PER_1>", str "Bob")
     (snd (anonymize (ner_only [mk_entity 3 99 (str "PER")]) (str "hi Bob") (str "en"))) /\
  occurs (str "Bob") (str "hi Bob").
Proof.
  assert (H : In (str "<PER_1>", str "Bob")
     (snd (anonymize (ner_only [mk_entity 3 99 (str "PER")]) (str "hi Bob") (str "en"))))
    by (vm_compute; now left).
  split; [exact H|].
  exact (table_values_from_text _ _ _ _ _ H).
Defined.

Lemma last_cons_default {A : Type} (x : A) (l : list A) (d d' : A) :
  last (x :: l) d = last (x :: l) d'.
Proof.
  revert x. induction l as [|y l IH]; intros x; [reflexivity|].
  change (last (y :: l) d = last (y :: l) d'). apply IH.
Qed.

Lemma fold_end_last (l : list span) :
  forall cur, fold_left (fun _ m => end_ m) l cur = last (map end_ l) cur.
Proof.
  induction l as [|m l IH]; intros cur; [reflexivity|].
  cbn [fold_left map]. rewrite IH.
  destruct l as [|x l]; [reflexivity|].
  cbn [map]. change (last (end_ m :: end_ x :: map end_ l) cur)
    with (last (end_ x :: map end_ l) cur).
  apply last_cons_default.
Qed.

Lemma counts_ok_fold (t : text) (l : list span) :
  forall seen st, counts_ok seen (counts st) ->
    counts_ok (seen ++ l) (counts (fold_left (subst_step t) l st)).
Proof.
  induction l as [|m l IH]; intros seen st Hc; cbn [fold_left].
  - now rewrite app_nil_r.
  - destruct (subst_step_spec t seen st m Hc) as (_ & _ & _ & Hc').
    replace (seen ++ m :: l) with ((seen ++ [m]) ++ l)
      by (now rewrite <- app_assoc).
    now apply IH.
Qed.

(** X11.  What the substitution loop leaves behind.  The sanitized text is,
    from left to right, the slice of the text from the cursor to the start
    of the next accepted span, then the placeholder of that span, the cursor
    moving to the end of the span, and at last the text from the cursor on;
    the table pairs the placeholders with the contents of the spans, in that
    order; the cursor ends at the end of the last accepted span (at 0 when
    there is none); and the counter of a label is the number of accepted
    spans of that label, a label being absent when it has none. *)
Theorem substitution_loop_outcome (t : text) (filtered : list span) :
  let st := subst_loop t filtered in
  Py.join (sanitized_parts st ++ [Py.slice_from t (current_idx st)]) =
    render (fun _ => false) t 0 [] filtered /\
  mapping_table st = entries [] filtered /\
  current_idx st = last (map end_ filtered) 0 /\
  forall lbl,
    Dict.get (counts st) lbl =
    match occurrences lbl filtered with
    | O => None
    | S c => Some (S c)
    end.
Proof.
  cbv zeta. unfold subst_loop.
  destruct (subst_fold_spec t filtered [] subst_init counts_ok_init)
    as (_ & Hp & Hi).
  split; [|split; [|split]].
  - rewrite Hp, Hi. apply join_parts.
  - apply subst_loop_table.
  - rewrite Hi. apply fold_end_last.
  - apply (counts_ok_fold t filtered [] subst_init counts_ok_init).
Qed.

Lemma regex_labels_plain (self : PrivacyGuard) (t : text) :
  Forall (fun m => plain (label m)) (detect_pii_regex self t).
Proof.
  rewrite detect_pii_regex_order. apply Forall_forall. intros m.
  rewrite !in_app_iff, !in_map_iff. intros H.
  repeat (destruct H as [H|H]); destruct H as (x & <- & _);
    unfold plain; simpl; intuition discriminate.
Qed.

(** X12.  A text without ["<"] always round-trips through [anonymize]
    and [restore], provided the detectors report offsets within the text
    ([0 <= start <= end <= len(text)]) and the selected pipeline reports
    entity groups that contain neither ["<"] nor [">"]. *)
Theorem round_trip_without_angle_bracket (self : PrivacyGuard) (t language : text) :
  ~ In "<"%char t ->
  Forall (within t) (detect_pii_regex self t ++ detect_pii_ner self t language) ->
  Forall (fun e => plain (entity_group e)) (selected_pipeline self language t) ->
  restore (fst (anonymize self t language)) (snd (anonymize self t language))
  = Some t.
Proof.
  intros Hlt Hin Hpl. unfold anonymize.
  rewrite anonymize_matches_spec. cbv zeta. cbn [fst snd].
  assert (Hlab : Forall (fun m => plain (label m))
            (filtered_matches (detect_pii_regex self t ++ detect_pii_ner self t language))).
  { apply Forall_forall. intros m Hm. apply filtered_matches_In in Hm.
    apply in_app_or in Hm. destruct Hm as [Hm|Hm].
    - pose proof (regex_labels_plain self t) as Hr.
      rewrite Forall_forall in Hr. auto.
    - rewrite detect_pii_ner_selected in Hm. apply in_map_iff in Hm.
      destruct Hm as (e & <- & He). rewrite Forall_forall in Hpl.
      exact (Hpl e He). }
  apply restore_entries.
  - apply filtered_matches_chain. apply Forall_forall. intros m Hm.
    rewrite Forall_forall in Hin. destruct (Hin m Hm) as [H1 H2].
    repeat split; try lia. eapply detected_content. exact Hm.
  - exact Hlab.
  - intros k Hk (a & b & E).
    destruct (shaped_head k (allocate_shaped _ _ _ Hlab Hk)) as (k' & ->).
    apply Hlt. rewrite E. apply in_or_app. right. now left.
Qed.

Lemma round_trip_without_angle_bracket_witness :
  ~ In "<"%char (str "Ann a@b.io") /\
  restore (fst (anonymize (fixed_guard [(4, 10)] [] [] [mk_entity 0 3 (str "PER")])
                          (str "Ann a@b.io") (str "en")))
          (snd (anonymize (fixed_guard [(4, 10)] [] [] [mk_entity 0 3 (str "PER")])
                          (str "Ann a@b.io") (str "en")))
  = Some (str "Ann a@b.io").
Proof.
  assert (H : ~ In "<"%char (str "Ann a@b.io"))
    by (simpl; intuition discriminate).
  split; [exact H|].
  apply (round_trip_without_angle_bracket _ _ _ H).
  - repeat constructor; simpl; lia.
  - repeat constructor; simpl; intuition discriminate.
Defined.

(** * The form of a placeholder *)

Lemma decimal_value_from_uint (d : uint) :
  forall acc,
    decimal_value_from acc (str (NilEmpty.string_of_uint d)) =
    Some (Nat.of_uint_acc d acc).
Proof.
  induction d; intros acc; cbn [NilEmpty.string_of_uint Nat.of_uint_acc];
    [reflexivity|..];
    unfold str in *; cbn [list_ascii_of_string decimal_value_from];
    match goal with
    | |- context [digit_value ?c] =>
        let v := eval vm_compute in (digit_value c) in
        change (digit_value c) with v
    end;
    cbv iota; rewrite IHd; do 2 f_equal; rewrite Nat.tail_mul_spec; lia.
Qed.

Lemma unorm_D0 (d y : uint) : unorm d = D0 y -> y = Nil.
Proof.
  induction d; simpl; intros H; try discriminate; auto.
  now injection H as <-.
Qed.

Lemma to_uint_normal (n : nat) : unorm (Nat.to_uint n) = Nat.to_uint n.
Proof.
  rewrite <- Unsigned.to_of. now rewrite Unsigned.of_to.
Qed.

Lemma str_of_nat_value (n : nat) : decimal_value (Py.str_of_nat n) = Some n.
Proof.
  unfold Py.str_of_nat.
  pose proof (decimal_value_from_uint (Nat.to_uint n) 0) as H.
  change (Nat.of_uint_acc (Nat.to_uint n) 0) with (Nat.of_uint (Nat.to_uint n)) in H.
  rewrite Unsigned.of_to in H.
  pose proof (to_uint_normal n) as Hn.
  destruct (Nat.to_uint n); [discriminate Hn|exact H..].
Qed.

Lemma str_of_nat_canonical (n : nat) :
  n <> 0%nat -> canonical_decimal (Py.str_of_nat n).
Proof.
  intros Hn. split; [apply str_of_nat_digits|].
  unfold Py.str_of_nat. pose proof (to_uint_normal n) as Hu.
  pose proof (Unsigned.of_to n) as Hof.
  destruct (Nat.to_uint n) as [|d|d|d|d|d|d|d|d|d|d] eqn:E;
    try (eexists; eexists; split; [reflexivity|discriminate]).
  - discriminate.
  - exfalso. apply Hn. simpl in Hu. apply unorm_D0 in Hu. subst d.
    rewrite <- Hof. reflexivity.
Qed.

(** C7.  The accepted spans are processed in ascending order of start.  The
    token emitted for the span at position [i] of any accepted sequence is
    ["<"], its label, ["_"], a decimal number and [">"], the number being
    the count of the spans of that label up to and including position [i]
    (1 for the first), written without leading zero; and of two spans of one
    label, the later one carries the larger number.  The emitted tokens are
    the keys of the table that [anonymize] returns, and are joined into the
    sanitized text. *)
Theorem placeholder_numbering (t : text) :
  (forall regex_matches ner_matches : list span,
      let st := subst_loop t (filtered_matches (regex_matches ++ ner_matches)) in
      StronglySorted le_start (filtered_matches (regex_matches ++ ner_matches)) /\
      fst (anonymize_matches t regex_matches ner_matches) =
        Py.join (sanitized_parts st ++ [Py.slice_from t (current_idx st)]) /\
      Dict.keys (snd (anonymize_matches t regex_matches ner_matches)) =
        emitted (sanitized_parts st)) /\
  (forall (filtered : list span) (i : nat) (m : span),
      nth_error filtered i = Some m ->
      exists suffix,
        nth_error (emitted (sanitized_parts (subst_loop t filtered))) i =
          Some (str "<" ++ label m ++ str "_" ++ suffix ++ str ">") /\
        canonical_decimal suffix /\
        decimal_value suffix =
          Some (occurrences (label m) (firstn (S i) filtered)) /\
        (1 <= occurrences (label m) (firstn (S i) filtered))%nat) /\
  (forall (filtered : list span) (i j : nat) (mi mj : span),
      (i < j)%nat ->
      nth_error filtered i = Some mi -> nth_error filtered j = Some mj ->
      label mi = label mj ->
      exists si sj ni nj,
        nth_error (emitted (sanitized_parts (subst_loop t filtered))) i =
          Some (str "<" ++ label mi ++ str "_" ++ si ++ str ">") /\
        nth_error (emitted (sanitized_parts (subst_loop t filtered))) j =
          Some (str "<" ++ label mj ++ str "_" ++ sj ++ str ">") /\
        decimal_value si = Some ni /\ decimal_value sj = Some nj /\
        (ni < nj)%nat).
Proof.
  assert (Hpos : forall filtered i m, nth_error filtered i = Some m ->
            (1 <= occurrences (label m) (firstn (S i) filtered))%nat).
  { intros filtered i m H.
    rewrite (firstn_snoc _ _ _ H), occurrences_snoc_same. lia. }
  assert (Hnth : forall filtered i m, nth_error filtered i = Some m ->
            nth_error (emitted (sanitized_parts (subst_loop t filtered))) i =
            Some (str "<" ++ label m ++ str "_"
                    ++ Py.str_of_nat (occurrences (label m) (firstn (S i) filtered))
                    ++ str ">")).
  { intros filtered i m H. rewrite subst_loop_emitted.
    now apply (allocate_nth filtered []). }
  split; [|split].
  - intros regex_matches ner_matches. cbv zeta. split; [|split].
    + apply filter_overlaps_strong. apply (sorted_ascending start).
    + reflexivity.
    + unfold anonymize_matches. cbn [snd].
      now rewrite subst_loop_emitted, subst_loop_table, entries_keys.
  - intros filtered i m H.
    exists (Py.str_of_nat (occurrences (label m) (firstn (S i) filtered))).
    pose proof (Hpos _ _ _ H) as Hp.
    split; [now apply Hnth|]. split; [apply str_of_nat_canonical; lia|].
    split; [apply str_of_nat_value|exact Hp].
  - intros filtered i j mi mj Hij Hi Hj Hl.
    exists (Py.str_of_nat (occurrences (label mi) (firstn (S i) filtered))),
           (Py.str_of_nat (occurrences (label mj) (firstn (S j) filtered))),
           (occurrences (label mi) (firstn (S i) filtered)),
           (occurrences (label mj) (firstn (S j) filtered)).
    split; [now apply Hnth|]. split; [now apply Hnth|].
    split; [apply str_of_nat_value|]. split; [apply str_of_nat_value|].
    rewrite (firstn_snoc _ _ _ Hj), occurrences_snoc_same, Hl.
    pose proof (occurrences_firstn_le (label mj) filtered (S i) j Hij). lia.
Qed.

Lemma placeholder_numbering_witness :
  nth_error [mk_span 0 3 (str "PER") (str "Ann"); mk_span 4 8 (str "LOC") (str "Rome");
             mk_span 9 12 (str "PER") (str "Bob")] 2%nat
    = Some (mk_span 9 12 (str "PER") (str "Bob")) /\
  exists suffix,
    nth_error (emitted (sanitized_parts (subst_loop (str "Ann Rome Bob")
      [mk_span 0 3 (str "PER") (str "Ann"); mk_span 4 8 (str "LOC") (str "Rome");
       mk_span 9 12 (str "PER") (str "Bob")]))) 2%nat
      = Some (str "<" ++ str "PER" ++ str "_" ++ suffix ++ str ">") /\
    decimal_value suffix = Some 2%nat.
Proof.
  split; [reflexivity|].
  destruct (proj1 (proj2 (placeholder_numbering (str "Ann Rome Bob")))
              [mk_span 0 3 (str "PER") (str "Ann"); mk_span 4 8 (str "LOC") (str "Rome");
               mk_span 9 12 (str "PER") (str "Bob")]
              2%nat (mk_span 9 12 (str "PER") (str "Bob")) eq_refl)
    as (suffix & H1 & _ & H2 & _).
  exists suffix. split; [exact H1|exact H2].
Defined.

(** * Precedence of the EMAIL pattern *)

(** C10.  [anonymize] reconciles the matches enumerated as the EMAIL
    matches, then the PHONE matches, then the IBAN matches, then the NER
    matches: its sanitized text and table are those laid out from the spans
    accepted in that enumeration.  So, whenever a span is accepted at the
    start offset of an EMAIL match, an EMAIL match of that offset is
    accepted, the returned table maps an [<EMAIL_n>] key to its content, and
    it is the only span accepted at that offset unless it is empty (the
    EMAIL pattern matches no empty string): no PHONE, IBAN or NER span of
    that offset is accepted in its place. *)
Theorem email_wins_tie (self : PrivacyGuard) (t language : text) :
  let enumerated :=
    map (match_tuple t (str "EMAIL")) (re_email self t)
      ++ map (match_tuple t (str "PHONE")) (re_phone self t)
      ++ map (match_tuple t (str "IBAN")) (re_iban self t)
      ++ detect_pii_ner self t language in
  anonymize self t language =
    (render (fun _ => false) t 0 [] (filtered_matches enumerated),
     entries [] (filtered_matches enumerated)) /\
  forall (m : Z * Z) (y : span),
    In m (re_email self t) ->
    In y (filtered_matches enumerated) ->
    start y = fst m ->
    exists (f : span) (n : nat),
      In f (map (match_tuple t (str "EMAIL")) (re_email self t)) /\
      label f = str "EMAIL" /\ start f = start y /\
      In f (filtered_matches enumerated) /\
      (nonempty f -> y = f) /\
      Dict.get (snd (anonymize self t language))
               (str "<EMAIL_" ++ Py.str_of_nat n ++ str ">")
        = Some (content f).
Proof.
  cbv zeta.
  assert (Henum : detect_pii_regex self t ++ detect_pii_ner self t language =
    map (match_tuple t (str "EMAIL")) (re_email self t)
      ++ map (match_tuple t (str "PHONE")) (re_phone self t)
      ++ map (match_tuple t (str "IBAN")) (re_iban self t)
      ++ detect_pii_ner self t language)
    by (rewrite detect_pii_regex_order; now rewrite <- !app_assoc).
  assert (Hout : anonymize self t language =
    (render (fun _ => false) t 0 []
       (filtered_matches (detect_pii_regex self t ++ detect_pii_ner self t language)),
     entries []
       (filtered_matches (detect_pii_regex self t ++ detect_pii_ner self t language))))
    by (unfold anonymize; apply anonymize_matches_spec).
  rewrite Henum in Hout. split; [exact Hout|].
  intros m y Hm Hy Hs.
  destruct (find_app_first (fun x => start x =? start y)
              (map (match_tuple t (str "EMAIL")) (re_email self t))
              (map (match_tuple t (str "PHONE")) (re_phone self t)
                 ++ map (match_tuple t (str "IBAN")) (re_iban self t)
                 ++ detect_pii_ner self t language)
              (match_tuple t (str "EMAIL") m))
    as (f & Hf & Hin).
  - now apply in_map.
  - simpl. apply Z.eqb_eq. now symmetry.
  - assert (Hlab : label f = str "EMAIL").
    { apply in_map_iff in Hin. destruct Hin as (m' & <- & _). reflexivity. }
    assert (Hacc : In f (filtered_matches
              (map (match_tuple t (str "EMAIL")) (re_email self t)
                 ++ map (match_tuple t (str "PHONE")) (re_phone self t)
                 ++ map (match_tuple t (str "IBAN")) (re_iban self t)
                 ++ detect_pii_ner self t language)))
      by (eapply filtered_matches_first_accepted; eassumption).
    destruct (In_nth_error _ _ Hacc) as (i & Hi).
    exists f, (occurrences (label f) (firstn (S i) (filtered_matches
              (map (match_tuple t (str "EMAIL")) (re_email self t)
                 ++ map (match_tuple t (str "PHONE")) (re_phone self t)
                 ++ map (match_tuple t (str "IBAN")) (re_iban self t)
                 ++ detect_pii_ner self t language)))).
    split; [exact Hin|]. split; [exact Hlab|]. split.
    { apply find_some in Hf. destruct Hf as [_ Hf]. now apply Z.eqb_eq in Hf. }
    split; [exact Hacc|]. split.
    { intros Hne. eapply filtered_matches_first; eassumption. }
    rewrite Hout. cbn [snd]. apply In_get.
    + rewrite entries_keys. apply allocate_NoDup.
    + pose proof (entries_nth _ [] i f Hi) as He. cbn [app] in He.
      rewrite Hlab in He at 1. exact He.
Qed.

Lemma email_wins_tie_witness :
  In (3, 9)
     (re_email (fixed_guard [(3, 9)] [(3, 5)] [] [mk_entity 3 9 (str "ORG")])
               (str "to a@b.io")) /\
  anonymize (fixed_guard [(3, 9)] [(3, 5)] [] [mk_entity 3 9 (str "ORG")])
            (str "to a@b.io") (str "en")
    = (str "to <EMAIL_1>", [(str "<EMAIL_1>", str "a@b.io")]) /\
  exists (f : span) (n : nat),
    label f = str "EMAIL" /\ start f = 3 /\
    Dict.get (snd (anonymize
                     (fixed_guard [(3, 9)] [(3, 5)] [] [mk_entity 3 9 (str "ORG")])
                     (str "to a@b.io") (str "en")))
             (str "<EMAIL_" ++ Py.str_of_nat n ++ str ">")
      = Some (content f).
Proof.
  split; [now left|].
  destruct (email_wins_tie
              (fixed_guard [(3, 9)] [(3, 5)] [] [mk_entity 3 9 (str "ORG")])
              (str "to a@b.io") (str "en")) as [Hout Hwin].
  split; [exact Hout|].
  destruct (Hwin (3, 9) (mk_span 3 9 (str "EMAIL") (str "a@b.io"))
              (or_introl eq_refl)
              ltac:(vm_compute; now left)
              eq_refl)
    as (f & n & _ & Hl & Hs & _ & _ & Hg).
  exists f, n. split; [exact Hl|]. split; [exact Hs|exact Hg].
Defined.

(** * What restoration keeps when table and text disagree *)

Lemma startswith_length (k s : text) :
  Py.startswith k s = true -> (length k <= length s)%nat.
Proof.
  intros H. apply startswith_true in H. destruct H as (r & ->).
  rewrite length_app. lia.
Qed.

Lemma startswith_app_l (k s r : text) :
  Py.startswith k s = true -> Py.startswith k (s ++ r) = true.
Proof.
  intros H. apply startswith_true in H. destruct H as (r' & ->).
  rewrite <- app_assoc. apply startswith_app.
Qed.

(** The scan works on [a] and on what follows independently when every
    occurrence of [old] that begins in [a] ends in [a]. *)
Lemma replace_scan_split (old new r : text) (a : text) :
  old <> [] ->
  forall skip,
    (skip <= length a)%nat ->
    (forall x y, a = x ++ y ->
       Py.startswith old (y ++ r) = true -> Py.startswith old y = true) ->
    Py.replace_scan old new skip (a ++ r) =
    Py.replace_scan old new skip a ++ Py.replace_scan old new 0%nat r.
Proof.
  intros Hold. induction a as [|c a IH]; intros skip Hs Hin.
  - simpl in Hs. replace skip with 0%nat by lia. simpl. now destruct r.
  - assert (Hin' : forall x y, a = x ++ y ->
              Py.startswith old (y ++ r) = true -> Py.startswith old y = true).
    { intros x y -> H. apply (Hin (c :: x) y); [reflexivity|exact H]. }
    change ((c :: a) ++ r) with (c :: (a ++ r)).
    destruct skip as [|skip]; cbn [Py.replace_scan].
    + change (c :: (a ++ r)) with ((c :: a) ++ r).
      destruct (Py.startswith old ((c :: a) ++ r)) eqn:E.
      * pose proof (Hin [] (c :: a) eq_refl E) as E'. rewrite E'.
        apply startswith_length in E'. cbn [length] in E'.
        rewrite IH; [now rewrite <- app_assoc| |exact Hin'].
        destruct old; [congruence|]. cbn [length] in *. lia.
      * destruct (Py.startswith old (c :: a)) eqn:E'.
        -- apply (startswith_app_l _ _ r) in E'. congruence.
        -- rewrite IH; [reflexivity|lia|exact Hin'].
    + apply IH; [cbn [length] in Hs; lia|exact Hin'].
Qed.

(** A shaped token other than the key is stepped over by the replacement,
    which works on the text before it and on the text after it. *)
Lemma replace_around (k v a p b : text) :
  shaped k -> shaped p -> p <> k ->
  Py.replace (a ++ p ++ b) k v = Py.replace a k v ++ p ++ Py.replace b k v.
Proof.
  intros Hk Hp Hne.
  destruct (shaped_head k Hk) as (k' & Ek).
  assert (Hnil : k <> []) by (rewrite Ek; discriminate).
  unfold Py.replace. rewrite Ek. rewrite <- Ek.
  rewrite replace_scan_split; [|exact Hnil|lia|].
  - f_equal. rewrite replace_scan_pass; [reflexivity|].
    now apply no_hit_in_placeholder.
  - intros x y -> H. apply startswith_true in H. destruct H as (r' & E).
    apply app_eq_app in E. destruct E as (l & [[E1 E2]|[E1 E2]]).
    + rewrite E1. apply startswith_app.
    + destruct l as [|d l].
      { rewrite app_nil_r in E1. rewrite E1.
        rewrite <- (app_nil_r y) at 2. apply startswith_app. }
      destruct y as [|e y].
      * simpl in E1. exfalso.
        assert (F : Py.startswith k (p ++ b) = false)
          by (apply (no_hit_in_placeholder k p b Hk Hp Hne [] p eq_refl);
              destruct (shaped_head p Hp) as (p' & ->); discriminate).
        rewrite E2, <- E1, startswith_app in F. discriminate.
      * exfalso.
        assert (Hl : ~ In "<"%char (d :: l))
          by (apply (shaped_suffix k (e :: y) (d :: l) Hk E1); discriminate).
        destruct (shaped_head p Hp) as (p' & Ep). rewrite Ep in E2.
        injection E2 as <- _. apply Hl. now left.
Qed.

Lemma restore_loop_around (table : Dict.t text) (p : text) (keys : list text) :
  shaped p ->
  Forall (fun k => shaped k /\ k <> p /\ In k (Dict.keys table)) keys ->
  forall a b, exists a' b',
    restore_loop table keys a = Some a' /\
    restore_loop table keys b = Some b' /\
    restore_loop table keys (a ++ p ++ b) = Some (a' ++ p ++ b').
Proof.
  intros Hp. induction keys as [|k keys IH]; intros Hk a b; cbn [restore_loop].
  - exists a, b. auto.
  - inversion Hk as [|? ? (Hs & Hne & Hin) Hk']; subst.
    destruct (Dict.get table k) as [v|] eqn:E.
    + rewrite replace_around by (assumption || congruence).
      apply IH. exact Hk'.
    + apply get_None_keys in E. contradiction.
Qed.

Lemma restore_loop_agree (d d' : Dict.t text) (keys : list text) :
  Forall (fun k => Dict.get d k = Dict.get d' k) keys ->
  forall s, restore_loop d keys s = restore_loop d' keys s.
Proof.
  induction keys as [|k keys IH]; intros H s; cbn [restore_loop]; [reflexivity|].
  inversion H as [|? ? Hk Hr]; subst. rewrite <- Hk.
  destruct (Dict.get d k); [now apply IH|reflexivity].
Qed.

Lemma sorted_longest_last (k : text) (keys : list text) :
  Forall (fun k' => (length k' < length k)%nat) keys ->
  Py.sorted_reverse key_len (keys ++ [k]) =
  k :: Py.sorted_reverse key_len keys.
Proof.
  unfold Py.sorted_reverse, Py.sorted. rewrite fold_right_app. cbn [fold_right Py.insert_by].
  induction keys as [|x keys IH]; intros H; [reflexivity|].
  inversion H as [|? ? Hx Hr]; subst. cbn [fold_right]. rewrite IH by assumption.
  cbn [Py.insert_by].
  destruct (- key_len x <=? - key_len k) eqn:E; [|reflexivity].
  apply Z.leb_le in E. unfold key_len in E. lia.
Qed.

(** C9 (as amended).  [restore] never raises, and with the empty table it
    returns the text.  A placeholder-shaped token of the text that is not a
    key of the table is left as it is when the keys are placeholder-shaped:
    the text before it and the text after it are restored as they would be
    on their own.  When no key of the table occurs in the text, the text is
    returned unchanged.  A key that does not occur in the text has no
    effect when it is longer than every other key, and in general leaves
    unchanged any text in which it does not occur when its turn comes. *)
Theorem restore_key_mismatch :
  (forall s table, exists r, restore s table = Some r) /\
  (forall s, restore s Dict.empty = Some s) /\
  (forall table a p b,
      Forall shaped (Dict.keys table) -> shaped p -> Dict.get table p = None ->
      exists a' b',
        restore a table = Some a' /\ restore b table = Some b' /\
        restore (a ++ p ++ b) table = Some (a' ++ p ++ b')) /\
  (forall s table,
      Forall (fun k => ~ occurs k s) (Dict.keys table) ->
      restore s table = Some s) /\
  (forall s table k v,
      ~ occurs k s ->
      Forall (fun k' => (length k' < length k)%nat) (Dict.keys table) ->
      restore s (Dict.set table k v) = restore s table) /\
  (forall s k v, ~ occurs k s -> Py.replace s k v = s) /\
  restore (str "<LOC_1> met <PER_1>") [(str "<LOC_1>", str "Rome")]
    = Some (str "Rome met <PER_1>").
Proof.
  split; [|split; [|split; [|split; [|split; [|split]]]]].
  - apply restore_total.
  - reflexivity.
  - intros table a p b Hk Hp Hg. unfold restore.
    apply restore_loop_around; [exact Hp|].
    apply Forall_forall. intros k Hin.
    assert (Hin' : In k (Dict.keys table))
      by (eapply Permutation_in; [apply sorted_reverse_perm|exact Hin]).
    rewrite Forall_forall in Hk. split; [auto|]. split; [|exact Hin'].
    intros ->. apply get_None_keys in Hg. contradiction.
  - intros s table H. apply restore_loop_absent.
    apply Forall_forall. intros k Hk.
    assert (Hin : In k (Dict.keys table))
      by (eapply Permutation_in; [apply sorted_reverse_perm|exact Hk]).
    rewrite Forall_forall in H. auto.
  - intros s table k v Hab Hlen.
    assert (Hfresh : ~ In k (Dict.keys table)).
    { intros Hin. rewrite Forall_forall in Hlen. specialize (Hlen _ Hin). lia. }
    unfold restore. rewrite (set_fresh table k v Hfresh).
    unfold Dict.keys. rewrite map_app. cbn [map fst].
    fold (Dict.keys table). rewrite sorted_longest_last by assumption.
    cbn [restore_loop]. rewrite <- (set_fresh table k v Hfresh).
    rewrite get_set_same, replace_absent by assumption.
    apply restore_loop_agree. apply Forall_forall. intros k' Hk'.
    apply get_set_other. intros ->. apply Hfresh.
    eapply Permutation_in; [apply sorted_reverse_perm|exact Hk'].
  - intros s k v. apply replace_absent.
  - reflexivity.
Qed.

Lemma restore_key_mismatch_witness :
  (Forall shaped (Dict.keys [(str "<LOC_1>", str "Rome")]) /\
   shaped (str "<PER_1>") /\
   Dict.get [(str "<LOC_1>", str "Rome")] (str "<PER_1>") = None) /\
  exists a' b',
    restore (str "<LOC_1> met ") [(str "<LOC_1>", str "Rome")] = Some a' /\
    restore (str "!") [(str "<LOC_1>", str "Rome")] = Some b' /\
    restore (str "<LOC_1> met " ++ str "<PER_1>" ++ str "!")
            [(str "<LOC_1>", str "Rome")]
      = Some (a' ++ str "<PER_1>" ++ b').
Proof.
  assert (H1 : Forall shaped (Dict.keys [(str "<LOC_1>", str "Rome")])).
  { constructor; [|constructor]. exists (str "LOC_1").
    split; [reflexivity|]. split; simpl; intuition discriminate. }
  assert (H2 : shaped (str "<PER_1>")).
  { exists (str "PER_1").
    split; [reflexivity|]. split; simpl; intuition discriminate. }
  assert (H3 : Dict.get [(str "<LOC_1>", str "Rome")] (str "<PER_1>") = None)
    by reflexivity.
  split; [auto|].
  exact (proj1 (proj2 (proj2 restore_key_mismatch)) _ _ _ _ H1 H2 H3).
Defined.

(** The keys have to be placeholder-shaped for an unmatched placeholder to
    survive: a key that is a fragment of it rewrites it. *)
Example unmatched_placeholder_needs_shaped_keys :
  Dict.get [(str "PER_", str "x")] (str "<PER_1>") = None /\
  restore (str "Dear <PER_1>,") [(str "PER_", str "x")] = Some (str "Dear <x1>,").
Proof. split; reflexivity. Qed.
